(** * Mint-Asset circuit and ephemeral key pair of ironfish

    Shallow embedding of
    - [src/ironfish-zkp/src/circuits/mint_asset.rs]: the [MintAsset] witness,
      its byte codec ([write] / [read]) and its circuit [synthesize];
    - [src/ironfish-rust/src/keys/ephemeral.rs]: [EphemeralKeyPair].

    The scalar field [jubjub::Fr] and its canonical 32-byte encoding are
    written out concretely.  The Jubjub group, the in-circuit Blake2s digest,
    the proof-generation-key codec and the 160-byte extended point codec live
    in external crates; they are the fields of the classes [Curve],
    [Blake2sHash] and [PgkCodec] below, and every property needed of them is
    an explicit premise of the theorems that use it.  The constraint-system
    gadgets of [bellperson] / [zcash_proofs] that [synthesize] calls are
    written in a small state/error monad over a constraint-system state,
    following how those gadgets allocate variables and inputs. *)

From Stdlib Require Import ZArith List Lia Bool.
From Stdlib Require Import Strings.Byte.
From ExtLib Require Import Structures.Monad Data.Monads.EitherMonad.
Import ListNotations.
Import MonadNotation.

Open Scope Z_scope.
Open Scope monad_scope.

(** ** Scalar field [jubjub::Fr] *)

Module Fr.

(** Modulus of the Jubjub scalar field. *)
Definition MODULUS : Z :=
  0x0e7db4ea6533afa906673b0101343b00a6682093ccc81082d0970e5ed6f72cb7.

(** [PrimeField::NUM_BITS] and [PrimeField::CAPACITY] of [jubjub::Fr]. *)
Definition NUM_BITS : nat := 252.
Definition CAPACITY : nat := 251.

(** An element of [jubjub::Fr] is a canonical representative. *)
Definition canonical (x : Z) : Prop := 0 <= x < MODULUS.

End Fr.

(** [PrimeField::NUM_BITS] of the BLS12-381 scalar field [blstrs::Scalar],
    the field the constraint system works over (Jubjub's base field). *)
Definition FQ_MODULUS : Z :=
  0x73eda753299d7d483339d80809a1d80553bda402fffe5bfeffffffff00000001.
Definition FQ_NUM_BITS : nat := 255.

(** ** Bytes and bits *)

Definition byte_of_Z (z : Z) : byte :=
  match Byte.of_N (Z.to_N z) with Some b => b | None => x00 end.

Definition Z_of_byte (b : byte) : Z := Z.of_N (Byte.to_N b).

(** [n] little-endian bytes of [x]. *)
Fixpoint bytes_le (x : Z) (n : nat) : list byte :=
  match n with
  | O => []
  | S n' => byte_of_Z (x mod 256) :: bytes_le (x / 256) n'
  end.

(** Little-endian value of a byte string. *)
Fixpoint Z_of_bytes_le (l : list byte) : Z :=
  match l with
  | [] => 0
  | b :: l' => Z_of_byte b + 256 * Z_of_bytes_le l'
  end.

(** [n] little-endian bits of [x] (the order of [to_le_bits]). *)
Fixpoint bits_le (x : Z) (n : nat) : list bool :=
  match n with
  | O => []
  | S n' => Z.odd x :: bits_le (Z.div2 x) n'
  end.

(** Little-endian value of a bit string. *)
Fixpoint le_value (l : list bool) : Z :=
  match l with
  | [] => 0
  | b :: l' => Z.b2z b + 2 * le_value l'
  end.

(** [jubjub::Fr::to_bytes]: canonical 32-byte little-endian encoding. *)
Definition fr_to_bytes (x : Z) : list byte := bytes_le x 32.

(** [jubjub::Fr::from_bytes]: the little-endian value, accepted only when
    it is below the modulus (a [CtOption] that is none otherwise). *)
Definition fr_from_bytes (bs : list byte) : option Z :=
  let z := Z_of_bytes_le bs in
  if z <? Fr.MODULUS then Some z else None.

(** ** External collaborators *)

(** The Jubjub prime-order subgroup ([jubjub::SubgroupPoint]) as the crates
    [jubjub] / [zcash_proofs] / [ironfish_zkp::constants] provide it: affine
    coordinates (elements of [blstrs::Scalar]), the group law, scalar
    multiplication, the three fixed generators and the 160-byte extended
    encoding [to_bytes_le] / unchecked [from_bytes_le] of ironfish's fork. *)
Class Curve := {
  Point : Type;
  point_u : Point -> Z;
  point_v : Point -> Z;
  padd : Point -> Point -> Point;
  smul : Z -> Point -> Point;
  SPENDING_KEY_GENERATOR : Point;
  PROOF_GENERATION_KEY_GENERATOR : Point;
  PUBLIC_KEY_GENERATOR : Point;
  point_to_bytes_le : Point -> list byte;
  point_from_bytes_le : list byte -> Point
}.

(** [zcash_primitives::sapling::ProofGenerationKey]. *)
Record ProofGenerationKey {C : Curve} : Type := mkProofGenerationKey {
  ak : Point;
  nsk : Z
}.
Arguments ProofGenerationKey {C}.
Arguments mkProofGenerationKey {C} _ _.

(** The witness of the Mint-Asset circuit (mint_asset.rs, lines 21-28). *)
Record MintAsset {C : Curve} : Type := mkMintAsset {
  proof_generation_key : option ProofGenerationKey;
  public_key_randomness : option Z
}.
Arguments MintAsset {C}.
Arguments mkMintAsset {C} _ _.

(** ** Reading from a byte source ([std::io::Read] over [&[u8]]) *)

Inductive ErrorKind := UnexpectedEof | InvalidInput | InvalidData.

(** Outcome of a read: a value and the unread rest, an [io::Error] returned
    to the caller, or a panic (an [unwrap] on a failed decode). *)
Inductive IoRes (A : Type) : Type :=
| IoOk (a : A) (rest : list byte)
| IoErr (e : ErrorKind)
| IoPanic.
Arguments IoOk {A} _ _.
Arguments IoErr {A} _.
Arguments IoPanic {A}.

Definition Reader (A : Type) : Type := list byte -> IoRes A.

#[global] Instance Monad_Reader : Monad Reader := {|
  ret := fun _ a s => IoOk a s;
  bind := fun _ _ m k s =>
    match m s with
    | IoOk a s' => k a s'
    | IoErr e => IoErr e
    | IoPanic => IoPanic
    end
|}.

(** [ReadBytesExt::read_u8]. *)
Definition read_u8 : Reader byte := fun s =>
  match s with
  | [] => IoErr UnexpectedEof
  | b :: s' => IoOk b s'
  end.

(** [Read::read_exact] into an [n]-byte buffer. *)
Definition read_exact (n : nat) : Reader (list byte) := fun s =>
  if Nat.leb n (length s) then IoOk (firstn n s) (skipn n s)
  else IoErr UnexpectedEof.

(** [Option::unwrap] / [CtOption::unwrap]: panics on none. *)
Definition unwrap {A} (o : option A) : Reader A := fun s =>
  match o with
  | Some a => IoOk a s
  | None => IoPanic
  end.

(** A reader whose successful runs do not depend on bytes past the ones
    it consumes, as every [std::io::Read] decoder over a slice. *)
Definition prefix_stable {A} (m : Reader A) : Prop :=
  forall v a rest extra, m v = IoOk a rest -> m (v ++ extra) = IoOk a (rest ++ extra).

(** The proof-generation-key codec of the [zcash_primitives] fork:
    [ProofGenerationKey::to_bytes_le] and [ProofGenerationKey::read]. *)
Class PgkCodec {C : Curve} := {
  pgk_to_bytes_le : ProofGenerationKey -> list byte;
  pgk_read : Reader ProofGenerationKey
}.

Section Codec.
Context {C : Curve} {P : PgkCodec}.

(** [MintAsset::write] (lines 31-45), into a [Vec<u8>] sink, which never
    fails: the bytes written. *)
Definition write (self : MintAsset) : list byte :=
  match proof_generation_key self with
  | Some k => x01 :: pgk_to_bytes_le k
  | None => [x00]
  end ++
  match public_key_randomness self with
  | Some a => x01 :: fr_to_bytes a
  | None => [x00]
  end.

(** [MintAsset::read] (lines 47-62). *)
Definition read : Reader MintAsset :=
  b1 <- read_u8 ;;
  proof_generation_key <-
    (if Byte.eqb b1 x01 then k <- pgk_read ;; ret (Some k) else ret None) ;;
  b2 <- read_u8 ;;
  public_key_randomness <-
    (if Byte.eqb b2 x01 then
       bytes <- read_exact 32 ;;
       a <- unwrap (fr_from_bytes bytes) ;;
       ret (Some a)
     else ret None) ;;
  ret (mkMintAsset proof_generation_key public_key_randomness).

(** [Serialize::serialize] (lines 65-71): [write] into a [Vec<u8>], whose
    [unwrap] never fails since writing to a vector does not; the bytes
    passed to [serialize_bytes]. *)
Definition serialize (self : MintAsset) : list byte := write self.

(** [BytesVisitor::visit_bytes] (lines 89-92), the visitor
    [deserialize_output] hands to [deserialize_bytes]:
    [MintAsset::read(v).unwrap()] over the slice [v]; [None] is a panic,
    either of the [unwrap] or inside [read]. *)
Definition visit_bytes (v : list byte) : option MintAsset :=
  match read v with
  | IoOk p _ => Some p
  | IoErr _ => None
  | IoPanic => None
  end.
End Codec.

(** ** [EphemeralKeyPair] (ephemeral.rs) *)

(** The fields are private: only the functions of this module build a
    pair, and none of them changes one. *)
Record EphemeralKeyPair {C : Curve} : Type := mkEphemeralKeyPair {
  secret : Z;
  public : Point
}.
Arguments EphemeralKeyPair {C}.
Arguments mkEphemeralKeyPair {C} _ _.

Module Ephemeral.
Section Ephemeral.
Context {C : Curve}.

(** [EphemeralKeyPair::new] (lines 20-27); [sampled] is the element
    [jubjub::Fr::random(thread_rng())] returns. *)
Definition new (sampled : Z) : EphemeralKeyPair :=
  let secret := sampled in
  mkEphemeralKeyPair secret (smul secret PUBLIC_KEY_GENERATOR).

(** The getters [secret()] and [public()]. *)
Definition secret_of (self : EphemeralKeyPair) : Z := secret self.
Definition public_of (self : EphemeralKeyPair) : Point := public self.

(** [to_bytes_le] (lines 37-42). *)
Definition to_bytes_le (self : EphemeralKeyPair) : list byte :=
  fr_to_bytes (secret self) ++ point_to_bytes_le (public self).

(** [from_bytes_le] (lines 44-50); [None] is a panic: slicing out of
    range, or the [unwrap] of a non-canonical scalar. *)
Definition from_bytes_le (bytes : list byte) : option EphemeralKeyPair :=
  if Nat.ltb (length bytes) 32 then None else
  let secret_bytes := firstn 32 bytes in
  if Nat.ltb (length bytes) 192 then None else
  let public_bytes := firstn 160 (skipn 32 bytes) in
  match fr_from_bytes secret_bytes with
  | None => None
  | Some secret =>
      let public := point_from_bytes_le public_bytes in
      Some (mkEphemeralKeyPair secret public)
  end.
End Ephemeral.
End Ephemeral.

(** ** Constraint systems *)

(** [Shape]: a constraint system that never evaluates assignment closures
    (the [KeypairAssembly] of parameter generation); [Prove]: one that
    evaluates them ([TestConstraintSystem], the prover's assignment). *)
Inductive Mode := Shape | Prove.

Record CS := mkCS {
  cs_mode : Mode;
  cs_inputs : list (option Z);
  cs_aux : list (option Z)
}.

Definition push_aux (x : option Z) (cs : CS) : CS :=
  mkCS (cs_mode cs) (cs_inputs cs) (cs_aux cs ++ [x]).

Definition push_input (x : option Z) (cs : CS) : CS :=
  mkCS (cs_mode cs) (cs_inputs cs ++ [x]) (cs_aux cs).

Inductive SynthesisError := AssignmentMissing | DivisionByZero.

(** The sites that can panic during synthesis: the [assert_eq!] of the
    [ivk] preimage length, and the two assertions of the Blake2s gadget. *)
Inductive PanicSite := PreimageLength | Blake2sPersonalization | Blake2sInputBytes.

Inductive Res (A : Type) : Type :=
| ROk (a : A) (cs : CS)
| RErr (e : SynthesisError)
| RPanic (p : PanicSite).
Arguments ROk {A} _ _.
Arguments RErr {A} _.
Arguments RPanic {A} _.

Definition Synth (A : Type) : Type := CS -> Res A.

#[global] Instance Monad_Synth : Monad Synth := {|
  ret := fun _ a cs => ROk a cs;
  bind := fun _ _ m k cs =>
    match m cs with
    | ROk a cs' => k a cs'
    | RErr e => RErr e
    | RPanic p => RPanic p
    end
|}.

Fixpoint mapS {A B} (f : A -> Synth B) (l : list A) : Synth (list B) :=
  match l with
  | [] => ret []
  | a :: l' => b <- f a ;; bs <- mapS f l' ;; ret (b :: bs)
  end.

(** [Option::get()?] inside an assignment closure. *)
Definition get_value {A} (o : option A) : SynthesisError + A :=
  match o with Some a => inr a | None => inl AssignmentMissing end.

Fixpoint all_values {A} (l : list (option A)) : SynthesisError + list A :=
  match l with
  | [] => inr []
  | o :: l' => a <- get_value o ;; as_ <- all_values l' ;; ret (a :: as_)
  end.

(** [ConstraintSystem::alloc]: a new auxiliary variable; its closure is
    run (and its error propagated) only in a [Prove] system.  The value
    the caller keeps is the closure's result, [None] in a [Shape] system. *)
Definition alloc_with {A} (enc : A -> Z) (f : SynthesisError + A) : Synth (option A) :=
  fun cs =>
    match cs_mode cs with
    | Shape => ROk None (push_aux None cs)
    | Prove =>
        match f with
        | inl e => RErr e
        | inr a => ROk (Some a) (push_aux (Some (enc a)) cs)
        end
    end.

(** [ConstraintSystem::alloc_input]: a new public input. *)
Definition alloc_input (f : SynthesisError + Z) : Synth unit := fun cs =>
  match cs_mode cs with
  | Shape => ROk tt (push_input None cs)
  | Prove =>
      match f with
      | inl e => RErr e
      | inr x => ROk tt (push_input (Some x) cs)
      end
  end.

(** [assert!]. *)
Definition assert_synth (b : bool) (site : PanicSite) : Synth unit := fun cs =>
  if b then ROk tt cs else RPanic site.

(** [a^e mod m] by square and multiply. *)
Fixpoint pow_mod_pos (a : Z) (e : positive) (m : Z) : Z :=
  match e with
  | xH => a mod m
  | xO e' => let h := pow_mod_pos a e' m in (h * h) mod m
  | xI e' => let h := pow_mod_pos a e' m in (a * h * h) mod m
  end.

(** Inverse in [blstrs::Scalar] (Fermat). *)
Definition fq_inv (z : Z) : Z :=
  match FQ_MODULUS - 2 with
  | Zpos e => pow_mod_pos z e FQ_MODULUS
  | _ => 0
  end.

(** The out-of-circuit Blake2s digest (the little-endian value of its 256
    output bits) that the [bellperson] Blake2s gadget computes in circuit,
    and the protocol constant [CRH_IVK_PERSONALIZATION] of
    [ironfish_zkp::constants]. *)
Class Blake2sHash := {
  blake2s_digest : list byte -> list bool -> Z;
  CRH_IVK_PERSONALIZATION : list byte
}.

(** Number of 3-bit windows of a [zcash_proofs] fixed-base table. *)
Definition FIXED_BASE_CHUNKS_PER_GENERATOR : nat := 84.

(** ** Gadgets of [bellperson] and [zcash_proofs::circuit::ecc]

    An [EdwardsPoint] is kept as the value of its two allocated
    coordinates: [Some p] in a [Prove] system, [None] in a [Shape] one.
    A [Boolean] is kept as its optional value. *)
Section Gadgets.
Context {C : Curve} {H : Blake2sHash}.

Definition EdwardsPoint : Type := option Point.

(** [AllocatedBit::alloc(cs, value)]: the bit keeps the value given. *)
Definition bit_alloc (value : option bool) : Synth (option bool) :=
  _ <- alloc_with Z.b2z (get_value value) ;;
  ret value.

(** [boolean::field_into_boolean_vec_le] for a field of [num_bits] bits:
    one allocated bit per bit of the little-endian representation. *)
Definition field_into_boolean_vec_le (num_bits : nat) (value : option Z)
  : Synth (list (option bool)) :=
  let values :=
    match value with
    | Some x => map Some (bits_le x num_bits)
    | None => repeat None num_bits
    end in
  mapS bit_alloc values.

(** Allocation of the coordinates [u], [v] of a point computed by [f]. *)
Definition point_alloc (f : SynthesisError + Point) : Synth EdwardsPoint :=
  p <- alloc_with point_u f ;;
  _ <- alloc_with point_v f ;;
  ret p.

(** [EdwardsPoint::witness]. *)
Definition witness (p : option Point) : Synth EdwardsPoint :=
  point_alloc (get_value p).

(** [EdwardsPoint::double]. *)
Definition double (ep : EdwardsPoint) : Synth EdwardsPoint :=
  point_alloc (p <- get_value ep ;; ret (padd p p)).

(** [EdwardsPoint::add]. *)
Definition add (ep1 ep2 : EdwardsPoint) : Synth EdwardsPoint :=
  point_alloc (p <- get_value ep1 ;; q <- get_value ep2 ;; ret (padd p q)).

(** [AllocatedNum::assert_nonzero]: allocates the inverse. *)
Definition assert_nonzero (x : option Z) : Synth unit :=
  _ <- alloc_with id (z <- get_value x ;;
                      if z =? 0 then inl DivisionByZero else inr (fq_inv z)) ;;
  ret tt.

(** [EdwardsPoint::assert_not_small_order]: three doublings, then the
    [u] coordinate must be non-zero. *)
Definition assert_not_small_order (ep : EdwardsPoint) : Synth unit :=
  t <- double ep ;;
  t <- double t ;;
  t <- double t ;;
  assert_nonzero (option_map point_u t).

(** [ecc::fixed_base_multiplication]: the bits are cut into 3-bit windows
    zipped with the table's windows; the result is [result.get()?] of the
    sum of the window lookups, so an empty [by] is [AssignmentMissing]. *)
Definition fixed_base_multiplication (base : Point) (by_ : list (option bool))
  : Synth EdwardsPoint :=
  let bits := firstn (3 * FIXED_BASE_CHUNKS_PER_GENERATOR) by_ in
  match by_ with
  | [] => fun _ => RErr AssignmentMissing
  | _ :: _ => point_alloc (bs <- all_values bits ;; ret (smul (le_value bs) base))
  end.

(** [EdwardsPoint::inputize]: [u] then [v] become public inputs. *)
Definition inputize (ep : EdwardsPoint) : Synth unit :=
  _ <- alloc_input (p <- get_value ep ;; ret (point_u p)) ;;
  alloc_input (p <- get_value ep ;; ret (point_v p)).

(** [AllocatedNum::into_bits_le_strict] over [blstrs::Scalar]. *)
Definition into_bits_le_strict (x : option Z) : Synth (list (option bool)) :=
  field_into_boolean_vec_le FQ_NUM_BITS x.

(** [EdwardsPoint::repr]: the bits of [v] followed by the low bit of [u]. *)
Definition repr (ep : EdwardsPoint) : Synth (list (option bool)) :=
  u <- into_bits_le_strict (option_map point_u ep) ;;
  v <- into_bits_le_strict (option_map point_v ep) ;;
  ret (v ++ [nth 0 u None]).

(** [blake2s::blake2s]: two assertions, then 256 output bits. *)
Definition blake2s (input : list (option bool)) (personalization : list byte)
  : Synth (list (option bool)) :=
  _ <- assert_synth (Nat.eqb (length personalization) 8) Blake2sPersonalization ;;
  _ <- assert_synth (Nat.eqb (Nat.modulo (length input) 8) 0) Blake2sInputBytes ;;
  let digest :=
    (bs <- all_values input ;;
     ret (bits_le (blake2s_digest personalization bs) 256)) in
  mapS (fun i => alloc_with Z.b2z (d <- digest ;; ret (nth i d false))) (seq 0 256).

(** [Vec::truncate]. *)
Definition truncate {A} (n : nat) (l : list A) : list A := firstn n l.

(** Lines 169-177 of [synthesize]: the Blake2s gadget over the preimage,
    then the truncation to [CAPACITY] bits. *)
Definition compute_ivk (ivk_preimage : list (option bool))
  : Synth (list (option bool)) :=
  ivk <- blake2s ivk_preimage CRH_IVK_PERSONALIZATION ;;
  ret (truncate Fr.CAPACITY ivk).

(** [MintAsset::synthesize] (lines 97-189). *)
Definition synthesize (self : MintAsset) : Synth unit :=
  ak <- witness (option_map ak (proof_generation_key self)) ;;
  _ <- assert_not_small_order ak ;;
  ar <- field_into_boolean_vec_le Fr.NUM_BITS (public_key_randomness self) ;;
  ar <- fixed_base_multiplication SPENDING_KEY_GENERATOR ar ;;
  rk <- add ak ar ;;
  _ <- inputize rk ;;
  nsk <- field_into_boolean_vec_le Fr.NUM_BITS
           (option_map nsk (proof_generation_key self)) ;;
  nk <- fixed_base_multiplication PROOF_GENERATION_KEY_GENERATOR nsk ;;
  repr_ak <- repr ak ;;
  repr_nk <- repr nk ;;
  let ivk_preimage := repr_ak ++ repr_nk in
  _ <- assert_synth (Nat.eqb (length ivk_preimage) 512) PreimageLength ;;
  ivk <- compute_ivk ivk_preimage ;;
  owner_public_address <- fixed_base_multiplication PUBLIC_KEY_GENERATOR ivk ;;
  inputize owner_public_address.

(** The bits [repr] produces for a known point. *)
Definition repr_bits (p : Point) : list bool :=
  bits_le (point_v p) FQ_NUM_BITS ++ [Z.odd (point_u p)].
End Gadgets.

(** ** Running synthesis steps *)

(** [m], started from any system of mode [md], succeeds with [a], keeps the
    mode, and appends exactly [ins] to the public inputs. *)
Definition emits {A} (m : Synth A) (md : Mode) (a : A) (ins : list (option Z)) : Prop :=
  forall cs, cs_mode cs = md ->
    exists cs', m cs = ROk a cs' /\ cs_mode cs' = md /\
                cs_inputs cs' = cs_inputs cs ++ ins.

(** [m] never panics at [site], and every success satisfies [P]. *)
Definition avoids {A} (site : PanicSite) (m : Synth A) (P : A -> Prop) : Prop :=
  forall cs,
    match m cs with
    | ROk a _ => P a
    | RErr _ => True
    | RPanic p => p <> site
    end.

(** [m1] and [m2], started from the same system in [Shape] mode, end the
    same way: in the same system with values related by [R], or with the
    same error or panic. *)
Definition shape_rel {A B} (R : A -> B -> Prop) (m1 : Synth A) (m2 : Synth B) : Prop :=
  forall cs, cs_mode cs = Shape ->
    match m1 cs, m2 cs with
    | ROk a1 cs1, ROk a2 cs2 => R a1 a2 /\ cs1 = cs2 /\ cs_mode cs1 = Shape
    | RErr e1, RErr e2 => e1 = e2
    | RPanic p1, RPanic p2 => p1 = p2
    | _, _ => False
    end.

(** Two lists of the same length. *)
Definition same_length {A B} (l1 : list A) (l2 : list B) : Prop := length l1 = length l2.

(** [[8] p], as [assert_not_small_order] computes it: three doublings. *)
Definition eight_times {C : Curve} (p : Point) : Point :=
  let t1 := padd p p in
  let t2 := padd t1 t1 in
  padd t2 t2.

(** ** A small instance of the collaborators

    Points are integers with addition as the group law; the codecs are
    little-endian integers.  It lets the theorems below be evaluated at
    concrete inputs. *)
Module Toy.
#[export] Instance curve : Curve := {|
  Point := Z;
  point_u := fun p => p;
  point_v := fun p => p;
  padd := Z.add;
  smul := Z.mul;
  SPENDING_KEY_GENERATOR := 1;
  PROOF_GENERATION_KEY_GENERATOR := 2;
  PUBLIC_KEY_GENERATOR := 3;
  point_to_bytes_le := fun p => bytes_le p 160;
  point_from_bytes_le := Z_of_bytes_le
|}.

#[export] Instance pgk_codec : PgkCodec := {|
  pgk_to_bytes_le := fun k => bytes_le (ak k) 32 ++ fr_to_bytes (nsk k);
  pgk_read :=
    a <- read_exact 32 ;;
    n <- read_exact 32 ;;
    ret (mkProofGenerationKey (Z_of_bytes_le a) (Z_of_bytes_le n))
|}.

#[export] Instance hash : Blake2sHash := {|
  blake2s_digest := fun _ bs => le_value bs;
  CRH_IVK_PERSONALIZATION := repeat x00 8
|}.
End Toy.

(** * Properties *)

(** ** Bytes and bits *)

Lemma mod_mul_split a b c :
  0 < b -> 0 < c -> a mod (b * c) = a mod b + b * ((a / b) mod c).
Proof.
  intros Hb Hc.
  symmetry. apply Z.mod_unique with (q := a / b / c).
  - left. pose proof (Z.mod_pos_bound a b Hb).
    pose proof (Z.mod_pos_bound (a / b) c Hc). nia.
  - pose proof (Z.div_mod a b ltac:(lia)).
    pose proof (Z.div_mod (a / b) c ltac:(lia)). nia.
Qed.

Lemma Z_of_byte_of_Z z : 0 <= z < 256 -> Z_of_byte (byte_of_Z z) = z.
Proof.
  intros Hz. unfold Z_of_byte, byte_of_Z.
  destruct (Byte.of_N (Z.to_N z)) as [b|] eqn:E.
  - apply Byte.to_of_N in E. rewrite E. apply Z2N.id. lia.
  - apply Byte.of_N_None_iff in E. lia.
Qed.

Lemma bytes_le_length x n : length (bytes_le x n) = n.
Proof. revert x; induction n; intros x; simpl; auto. Qed.

Lemma bits_le_length x n : length (bits_le x n) = n.
Proof. revert x; induction n; intros x; simpl; auto. Qed.

Lemma Z_of_bytes_le_bytes_le x n :
  Z_of_bytes_le (bytes_le x n) = x mod 256 ^ Z.of_nat n.
Proof.
  revert x; induction n as [|n IH]; intros x.
  - simpl. rewrite Z.mod_1_r. reflexivity.
  - simpl bytes_le. simpl Z_of_bytes_le.
    rewrite IH, Z_of_byte_of_Z by (apply Z.mod_pos_bound; lia).
    rewrite Nat2Z.inj_succ, Z.pow_succ_r by lia.
    rewrite mod_mul_split by lia. reflexivity.
Qed.

Lemma le_value_bits_le x n :
  le_value (bits_le x n) = x mod 2 ^ Z.of_nat n.
Proof.
  revert x; induction n as [|n IH]; intros x.
  - simpl. rewrite Z.mod_1_r. reflexivity.
  - simpl bits_le. simpl le_value. rewrite IH.
    rewrite Nat2Z.inj_succ, Z.pow_succ_r by lia.
    rewrite mod_mul_split by lia.
    rewrite Z.div2_div. f_equal.
    pose proof (Z.div2_odd x) as Hx. rewrite Z.div2_div in Hx.
    apply Z.mod_unique with (q := x / 2); [|lia].
    left. destruct (Z.odd x); simpl; lia.
Qed.

Lemma fr_from_to_bytes x :
  Fr.canonical x -> fr_from_bytes (fr_to_bytes x) = Some x.
Proof.
  unfold Fr.canonical, fr_from_bytes, fr_to_bytes. intros Hx.
  rewrite Z_of_bytes_le_bytes_le.
  rewrite Z.mod_small by (unfold Fr.MODULUS in Hx; simpl; lia).
  destruct (Z.ltb_spec x Fr.MODULUS); [reflexivity | lia].
Qed.

Lemma fr_to_bytes_length x : length (fr_to_bytes x) = 32%nat.
Proof. apply bytes_le_length. Qed.

(** ** The witness codec *)

Section CodecProps.
Context {C : Curve} {P : PgkCodec}.

Lemma read_u8_cons b s : read_u8 (b :: s) = IoOk b s.
Proof. reflexivity. Qed.

Lemma read_exact_app n l s :
  length l = n -> read_exact n (l ++ s) = IoOk l s.
Proof.
  intros <-. unfold read_exact. rewrite length_app.
  replace (Nat.leb (length l) (length l + length s)) with true
    by (symmetry; apply Nat.leb_le; lia).
  rewrite firstn_app, firstn_all, Nat.sub_diag, firstn_O, app_nil_r.
  rewrite skipn_app, skipn_all, Nat.sub_diag, skipn_O. reflexivity.
Qed.

(** C4 (corrected): the length of the bytes [write] emits, one case per
    combination of the two presence flags: 2, 66, 34 or 98 bytes, since
    each of the two presence bytes is always written. *)
Theorem write_length (w : MintAsset) :
  (forall k, proof_generation_key w = Some k ->
             length (pgk_to_bytes_le k) = 64%nat) ->
  length (write w) =
    match proof_generation_key w, public_key_randomness w with
    | None, None => 2
    | Some _, None => 66
    | None, Some _ => 34
    | Some _, Some _ => 98
    end%nat.
Proof.
  intros Hk. destruct w as [[k|] [a|]]; unfold write; simpl in *;
    rewrite ?length_app; simpl;
    try rewrite (Hk k eq_refl); rewrite ?fr_to_bytes_length; reflexivity.
Qed.

Lemma reader_bind_ok {A B} (m : Reader A) (k : A -> Reader B) s a s' :
  m s = IoOk a s' -> (x <- m ;; k x) s = k a s'.
Proof. intros E. simpl. rewrite E. reflexivity. Qed.

Lemma read_scalar_ok a rest :
  Fr.canonical a ->
  (bytes <- read_exact 32 ;;
   a' <- unwrap (fr_from_bytes bytes) ;;
   ret (Some a')) (fr_to_bytes a ++ rest) = IoOk (Some a) rest.
Proof.
  intros Ha.
  rewrite (reader_bind_ok _ _ _ _ _ (read_exact_app _ _ _ (fr_to_bytes_length a))).
  simpl. rewrite fr_from_to_bytes by exact Ha. reflexivity.
Qed.

(** C3: [read] inverts [write] for all four combinations of the presence
    flags, given that the proof-generation-key codec round-trips and that
    [public_key_randomness] is a canonical [jubjub::Fr]. *)
Theorem read_write (w : MintAsset) (rest : list byte) :
  (forall k, proof_generation_key w = Some k ->
     forall rest', pgk_read (pgk_to_bytes_le k ++ rest') = IoOk k rest') ->
  (forall a, public_key_randomness w = Some a -> Fr.canonical a) ->
  read (write w ++ rest) = IoOk w rest.
Proof.
  intros Hk Ha. destruct w as [ok oa]; simpl in Hk, Ha.
  unfold write, read; simpl proof_generation_key; simpl public_key_randomness.
  destruct ok as [k|]; simpl.
  - rewrite <- app_assoc, Hk by reflexivity. simpl.
    destruct oa as [a|]; simpl.
    + pose proof (read_scalar_ok a rest (Ha a eq_refl)) as E.
      simpl in E. rewrite E. reflexivity.
    + reflexivity.
  - destruct oa as [a|]; simpl.
    + pose proof (read_scalar_ok a rest (Ha a eq_refl)) as E.
      simpl in E. rewrite E. reflexivity.
    + reflexivity.
Qed.

Lemma byte_eqb_neq b b' : b <> b' -> Byte.eqb b b' = false.
Proof.
  intros Hne. destruct (Byte.eqb b b') eqn:E; [|reflexivity].
  apply Byte.byte_dec_bl in E. contradiction.
Qed.


(** C5 (code bug): 32 scalar bytes after an ar-presence byte [1] that are
    not a canonical [jubjub::Fr] make [read] panic (the [unwrap] of line
    56), while a short source is an [io::Error] returned to the caller. *)
Theorem read_noncanonical_scalar_panics :
  read (x00 :: x01 :: repeat xff 32) = IoPanic /\
  read [] = IoErr UnexpectedEof /\
  read [x00; x01] = IoErr UnexpectedEof.
Proof. repeat split; reflexivity. Qed.
End CodecProps.

(** ** The ephemeral key pair *)

Section EphemeralProps.
Context {C : Curve}.

(** C6: a pair built by [new] satisfies
    [public == [secret] PUBLIC_KEY_GENERATOR], read through its getters;
    no function of [EphemeralKeyPair] changes a pair, so this holds for
    the pair's whole life. *)
Theorem new_consistent (sampled : Z) :
  let kp := Ephemeral.new sampled in
  Ephemeral.public_of kp = smul (Ephemeral.secret_of kp) PUBLIC_KEY_GENERATOR /\
  Ephemeral.secret_of kp = sampled.
Proof. split; reflexivity. Qed.

(** C7: [to_bytes_le] gives 192 bytes, and [from_bytes_le] returns the
    same pair, for a canonical secret and a point whose extended encoding
    is 160 bytes long and decodes back. *)
Theorem to_from_bytes_le (kp : EphemeralKeyPair) :
  Fr.canonical (secret kp) ->
  length (point_to_bytes_le (public kp)) = 160%nat ->
  point_from_bytes_le (point_to_bytes_le (public kp)) = public kp ->
  length (Ephemeral.to_bytes_le kp) = 192%nat /\
  Ephemeral.from_bytes_le (Ephemeral.to_bytes_le kp) = Some kp.
Proof.
  intros Hs Hlen Hrt.
  assert (Hl : length (Ephemeral.to_bytes_le kp) = 192%nat).
  { unfold Ephemeral.to_bytes_le. rewrite length_app, fr_to_bytes_length, Hlen.
    reflexivity. }
  split; [exact Hl|].
  unfold Ephemeral.from_bytes_le. rewrite Hl. simpl Nat.ltb. cbv iota.
  unfold Ephemeral.to_bytes_le.
  rewrite firstn_app, fr_to_bytes_length, Nat.sub_diag, firstn_O, app_nil_r.
  rewrite firstn_all2 by (rewrite fr_to_bytes_length; lia).
  rewrite skipn_app, fr_to_bytes_length, Nat.sub_diag, skipn_O.
  rewrite skipn_all2 by (rewrite fr_to_bytes_length; lia). simpl app.
  rewrite firstn_all2 by lia.
  rewrite fr_from_to_bytes by exact Hs. rewrite Hrt.
  destruct kp; reflexivity.
Qed.
End EphemeralProps.

(** ** Synthesis steps *)

Section Steps.
Context {C : Curve} {H : Blake2sHash}.

Lemma emits_ret {A} (a : A) md : emits (ret a) md a [].
Proof.
  intros cs Hcs. exists cs. rewrite app_nil_r. auto.
Qed.

Lemma emits_bind {A B} (m : Synth A) (k : A -> Synth B) md a b i1 i2 i :
  emits m md a i1 -> emits (k a) md b i2 -> i = i1 ++ i2 ->
  emits (bind m k) md b i.
Proof.
  intros Hm Hk -> cs Hcs.
  destruct (Hm cs Hcs) as [cs1 [E1 [M1 I1]]].
  destruct (Hk cs1 M1) as [cs2 [E2 [M2 I2]]].
  exists cs2. simpl. rewrite E1. split; [exact E2|]. split; [exact M2|].
  rewrite I2, I1, app_assoc. reflexivity.
Qed.

Lemma emits_alloc_prove {A} (enc : A -> Z) f a :
  f = inr a -> emits (alloc_with enc f) Prove (Some a) [].
Proof.
  intros -> cs Hcs. unfold alloc_with. rewrite Hcs.
  eexists. split; [reflexivity|]. simpl. rewrite app_nil_r. auto.
Qed.

Lemma emits_alloc_shape {A} (enc : A -> Z) f :
  emits (alloc_with enc f) Shape None [].
Proof.
  intros cs Hcs. unfold alloc_with. rewrite Hcs.
  eexists. split; [reflexivity|]. simpl. rewrite app_nil_r. auto.
Qed.

Lemma emits_alloc_input_prove f x :
  f = inr x -> emits (alloc_input f) Prove tt [Some x].
Proof.
  intros -> cs Hcs. unfold alloc_input. rewrite Hcs.
  eexists. split; [reflexivity|]. simpl. auto.
Qed.

Lemma emits_alloc_input_shape f :
  emits (alloc_input f) Shape tt [None].
Proof.
  intros cs Hcs. unfold alloc_input. rewrite Hcs.
  eexists. split; [reflexivity|]. simpl. auto.
Qed.

Lemma emits_assert site md : emits (assert_synth true site) md tt [].
Proof.
  intros cs Hcs. exists cs. rewrite app_nil_r. auto.
Qed.

Lemma emits_mapS {A B} (f : A -> Synth B) (g : A -> B) md l :
  (forall x, In x l -> emits (f x) md (g x) []) ->
  emits (mapS f l) md (map g l) [].
Proof.
  induction l as [|x l IH]; intros Hf; simpl.
  - apply emits_ret.
  - eapply emits_bind; [apply Hf; left; reflexivity| |reflexivity].
    eapply emits_bind; [apply IH; intros y Hy; apply Hf; right; exact Hy| |reflexivity].
    apply emits_ret.
Qed.
End Steps.

(** ** Gadget steps *)

Section GadgetSteps.
Context {C : Curve} {H : Blake2sHash}.

Lemma emits_ret_eq {A} (a b : A) md : a = b -> emits (ret a) md b [].
Proof. intros ->. apply emits_ret. Qed.

Lemma all_values_map_Some {A} (l : list A) : all_values (map Some l) = inr l.
Proof. induction l as [|x l IH]; simpl; [reflexivity|]. rewrite IH. reflexivity. Qed.

Lemma firstn_bits_le m n x : (m <= n)%nat -> firstn m (bits_le x n) = bits_le x m.
Proof.
  revert n x; induction m as [|m IH]; intros n x Hmn; [reflexivity|].
  destruct n as [|n]; [lia|]. simpl. f_equal. apply IH. lia.
Qed.

Lemma map_nth_seq_all {A} (l : list A) d :
  map (fun i => nth i l d) (seq 0 (length l)) = l.
Proof.
  induction l as [|x l IH]; [reflexivity|].
  simpl length. cbn [seq map]. rewrite <- seq_shift, map_map. cbn [nth].
  rewrite IH. reflexivity.
Qed.

Lemma bit_alloc_prove b : emits (bit_alloc (Some b)) Prove (Some b) [].
Proof.
  unfold bit_alloc.
  eapply emits_bind; [apply emits_alloc_prove; reflexivity | apply emits_ret | reflexivity].
Qed.

Lemma bit_alloc_shape v : emits (bit_alloc v) Shape v [].
Proof.
  unfold bit_alloc.
  eapply emits_bind; [apply emits_alloc_shape | apply emits_ret | reflexivity].
Qed.

Lemma field_into_prove n x :
  emits (field_into_boolean_vec_le n (Some x)) Prove (map Some (bits_le x n)) [].
Proof.
  unfold field_into_boolean_vec_le.
  pose proof (emits_mapS bit_alloc (fun v => v) Prove (map Some (bits_le x n))) as E.
  rewrite map_id in E. apply E.
  intros v Hv. apply in_map_iff in Hv as [b [<- _]]. apply bit_alloc_prove.
Qed.

Lemma field_into_shape n v :
  emits (field_into_boolean_vec_le n v) Shape
    (match v with Some x => map Some (bits_le x n) | None => repeat None n end) [].
Proof.
  unfold field_into_boolean_vec_le.
  match goal with |- emits (mapS _ ?l) _ _ _ =>
    pose proof (emits_mapS bit_alloc (fun v => v) Shape l) as E end.
  rewrite map_id in E. apply E. intros w _. apply bit_alloc_shape.
Qed.

Lemma point_alloc_prove f p : f = inr p -> emits (point_alloc f) Prove (Some p) [].
Proof.
  intros Hf. unfold point_alloc.
  eapply emits_bind; [apply emits_alloc_prove; exact Hf| |reflexivity].
  eapply emits_bind; [apply emits_alloc_prove; exact Hf| |reflexivity].
  apply emits_ret.
Qed.

Lemma point_alloc_shape f : emits (point_alloc f) Shape None [].
Proof.
  unfold point_alloc.
  eapply emits_bind; [apply emits_alloc_shape| |reflexivity].
  eapply emits_bind; [apply emits_alloc_shape| |reflexivity].
  apply emits_ret.
Qed.

Lemma witness_prove p : emits (witness (Some p)) Prove (Some p) [].
Proof. apply point_alloc_prove. reflexivity. Qed.

Lemma witness_shape v : emits (witness v) Shape None [].
Proof. apply point_alloc_shape. Qed.

Lemma double_prove p : emits (double (Some p)) Prove (Some (padd p p)) [].
Proof. apply point_alloc_prove. reflexivity. Qed.

Lemma double_shape ep : emits (double ep) Shape None [].
Proof. apply point_alloc_shape. Qed.

Lemma add_prove p q : emits (add (Some p) (Some q)) Prove (Some (padd p q)) [].
Proof. apply point_alloc_prove. reflexivity. Qed.

Lemma add_shape ep1 ep2 : emits (add ep1 ep2) Shape None [].
Proof. apply point_alloc_shape. Qed.

Lemma assert_nonzero_prove z : z <> 0 -> emits (assert_nonzero (Some z)) Prove tt [].
Proof.
  intros Hz. unfold assert_nonzero.
  eapply emits_bind; [apply emits_alloc_prove | apply emits_ret | reflexivity].
  simpl. destruct (Z.eqb_spec z 0); [contradiction | reflexivity].
Qed.

Lemma assert_nonzero_shape x : emits (assert_nonzero x) Shape tt [].
Proof.
  unfold assert_nonzero.
  eapply emits_bind; [apply emits_alloc_shape | apply emits_ret | reflexivity].
Qed.

Lemma assert_not_small_order_prove p :
  point_u (eight_times p) <> 0 ->
  emits (assert_not_small_order (Some p)) Prove tt [].
Proof.
  intros Hp. unfold assert_not_small_order.
  eapply emits_bind; [apply double_prove| |reflexivity].
  eapply emits_bind; [apply double_prove| |reflexivity].
  eapply emits_bind; [apply double_prove| |reflexivity].
  apply assert_nonzero_prove. exact Hp.
Qed.

Lemma assert_not_small_order_shape ep :
  emits (assert_not_small_order ep) Shape tt [].
Proof.
  unfold assert_not_small_order.
  eapply emits_bind; [apply double_shape| |reflexivity].
  eapply emits_bind; [apply double_shape| |reflexivity].
  eapply emits_bind; [apply double_shape| |reflexivity].
  apply assert_nonzero_shape.
Qed.

Lemma fbm_prove base bs :
  bs <> [] ->
  emits (fixed_base_multiplication base (map Some bs)) Prove
    (Some (smul (le_value (firstn (3 * FIXED_BASE_CHUNKS_PER_GENERATOR) bs)) base)) [].
Proof.
  intros Hbs. destruct bs as [|b bs]; [contradiction|].
  unfold fixed_base_multiplication. cbn [map].
  apply point_alloc_prove.
  rewrite <- (map_cons Some b bs), firstn_map, all_values_map_Some. reflexivity.
Qed.

Lemma fbm_shape base by_ :
  by_ <> [] -> emits (fixed_base_multiplication base by_) Shape None [].
Proof.
  intros Hb. destruct by_ as [|b by_]; [contradiction|].
  apply point_alloc_shape.
Qed.

Lemma inputize_prove p :
  emits (inputize (Some p)) Prove tt [Some (point_u p); Some (point_v p)].
Proof.
  unfold inputize.
  eapply emits_bind; [apply emits_alloc_input_prove; reflexivity
                     | apply emits_alloc_input_prove; reflexivity | reflexivity].
Qed.

Lemma inputize_shape ep : emits (inputize ep) Shape tt [None; None].
Proof.
  unfold inputize.
  eapply emits_bind; [apply emits_alloc_input_shape
                     | apply emits_alloc_input_shape | reflexivity].
Qed.

Lemma repr_prove p : emits (repr (Some p)) Prove (map Some (repr_bits p)) [].
Proof.
  unfold repr.
  eapply emits_bind; [apply field_into_prove| |reflexivity].
  eapply emits_bind; [apply field_into_prove| |reflexivity].
  apply emits_ret_eq. unfold repr_bits. rewrite map_app. reflexivity.
Qed.

Lemma repr_shape : emits (repr None) Shape (repeat None 256) [].
Proof.
  unfold repr.
  eapply emits_bind; [apply field_into_shape| |reflexivity].
  eapply emits_bind; [apply field_into_shape| |reflexivity].
  apply emits_ret_eq. reflexivity.
Qed.

Lemma blake2s_prove bs pers :
  length pers = 8%nat -> Nat.modulo (length bs) 8 = 0%nat ->
  emits (blake2s (map Some bs) pers) Prove
    (map Some (bits_le (blake2s_digest pers bs) 256)) [].
Proof.
  intros Hp Hb. unfold blake2s.
  rewrite Hp, length_map, Hb. cbn [Nat.eqb].
  eapply emits_bind; [apply emits_assert| |reflexivity].
  eapply emits_bind; [apply emits_assert| |reflexivity].
  rewrite all_values_map_Some.
  set (d := bits_le (blake2s_digest pers bs) 256).
  replace (map Some d) with (map (fun i => Some (nth i d false)) (seq 0 256)).
  2:{ pose proof (map_nth_seq_all d false) as E.
      unfold d in E at 2. rewrite bits_le_length in E.
      transitivity (map Some (map (fun i => nth i d false) (seq 0 256))).
      - rewrite map_map. reflexivity.
      - rewrite E. reflexivity. }
  apply emits_mapS. intros i _. apply emits_alloc_prove. reflexivity.
Qed.

Lemma blake2s_shape input pers :
  length pers = 8%nat -> Nat.modulo (length input) 8 = 0%nat ->
  emits (blake2s input pers) Shape (repeat None 256) [].
Proof.
  intros Hp Hb. unfold blake2s. rewrite Hp, Hb. cbn [Nat.eqb].
  eapply emits_bind; [apply emits_assert| |reflexivity].
  eapply emits_bind; [apply emits_assert| |reflexivity].
  replace (repeat (@None bool) 256) with (map (fun _ : nat => @None bool) (seq 0 256))
    by reflexivity.
  apply emits_mapS. intros i _. apply emits_alloc_shape.
Qed.
End GadgetSteps.

(** ** Synthesis of the Mint-Asset circuit *)

Section SynthesizeRuns.
Context {C : Curve} {H : Blake2sHash}.

Lemma repr_bits_length p : length (repr_bits p) = 256%nat.
Proof. unfold repr_bits. rewrite length_app, bits_le_length. reflexivity. Qed.

Lemma fbm_bits_prove base n x :
  (0 < n <= 3 * FIXED_BASE_CHUNKS_PER_GENERATOR)%nat ->
  emits (fixed_base_multiplication base (map Some (bits_le x n))) Prove
    (Some (smul (x mod 2 ^ Z.of_nat n) base)) [].
Proof.
  intros Hn.
  assert (Hne : bits_le x n <> []).
  { destruct n; [lia | discriminate]. }
  pose proof (fbm_prove base _ Hne) as E.
  rewrite firstn_all2 in E by (rewrite bits_le_length; lia).
  rewrite le_value_bits_le in E. exact E.
Qed.

Lemma canonical_mod_252 x : Fr.canonical x -> x mod 2 ^ Z.of_nat Fr.NUM_BITS = x.
Proof.
  unfold Fr.canonical, Fr.MODULUS, Fr.NUM_BITS. intros Hx.
  apply Z.mod_small. simpl. lia.
Qed.

Lemma compute_ivk_prove bs :
  length CRH_IVK_PERSONALIZATION = 8%nat -> Nat.modulo (length bs) 8 = 0%nat ->
  emits (compute_ivk (map Some bs)) Prove
    (map Some (bits_le (blake2s_digest CRH_IVK_PERSONALIZATION bs) Fr.CAPACITY)) [].
Proof.
  intros Hp Hb. unfold compute_ivk.
  eapply emits_bind; [apply blake2s_prove; assumption| |reflexivity].
  apply emits_ret_eq. unfold truncate.
  rewrite firstn_map, firstn_bits_le by (unfold Fr.CAPACITY; lia). reflexivity.
Qed.

Lemma compute_ivk_shape input :
  length CRH_IVK_PERSONALIZATION = 8%nat -> Nat.modulo (length input) 8 = 0%nat ->
  emits (compute_ivk input) Shape (repeat None Fr.CAPACITY) [].
Proof.
  intros Hp Hb. unfold compute_ivk.
  eapply emits_bind; [apply blake2s_shape; assumption| |reflexivity].
  apply emits_ret_eq. reflexivity.
Qed.

(** A full witness, in a system that evaluates assignments. *)
Lemma synthesize_prove k a :
  Fr.canonical (nsk k) -> Fr.canonical a ->
  length CRH_IVK_PERSONALIZATION = 8%nat ->
  point_u (eight_times (ak k)) <> 0 ->
  let rk := padd (ak k) (smul a SPENDING_KEY_GENERATOR) in
  let nk := smul (nsk k) PROOF_GENERATION_KEY_GENERATOR in
  let ivk := blake2s_digest CRH_IVK_PERSONALIZATION (repr_bits (ak k) ++ repr_bits nk)
             mod 2 ^ Z.of_nat Fr.CAPACITY in
  let pk_d := smul ivk PUBLIC_KEY_GENERATOR in
  emits (synthesize (mkMintAsset (Some k) (Some a))) Prove tt
    [Some (point_u rk); Some (point_v rk); Some (point_u pk_d); Some (point_v pk_d)].
Proof.
  intros Hnsk Ha Hp Hak rk nk ivk pk_d.
  unfold synthesize. cbn [option_map proof_generation_key public_key_randomness].
  eapply emits_bind; [apply witness_prove| cbv beta |reflexivity].
  eapply emits_bind; [apply assert_not_small_order_prove; exact Hak| cbv beta |reflexivity].
  eapply emits_bind; [apply field_into_prove| cbv beta |reflexivity].
  eapply emits_bind; [apply fbm_bits_prove; unfold Fr.NUM_BITS, FIXED_BASE_CHUNKS_PER_GENERATOR; lia
                     | cbv beta |reflexivity].
  rewrite canonical_mod_252 by exact Ha.
  eapply emits_bind; [apply add_prove| cbv beta |reflexivity].
  eapply emits_bind; [apply inputize_prove| cbv beta |reflexivity].
  eapply emits_bind; [apply field_into_prove| cbv beta |reflexivity].
  eapply emits_bind; [apply fbm_bits_prove; unfold Fr.NUM_BITS, FIXED_BASE_CHUNKS_PER_GENERATOR; lia
                     | cbv beta |reflexivity].
  rewrite canonical_mod_252 by exact Hnsk.
  eapply emits_bind; [apply repr_prove| cbv beta |reflexivity].
  eapply emits_bind; [apply repr_prove| cbv beta zeta |reflexivity].
  replace (Nat.eqb (length (map Some (repr_bits (ak k)) ++ map Some (repr_bits
             (smul (nsk k) PROOF_GENERATION_KEY_GENERATOR)))) 512) with true
    by (rewrite length_app, !length_map, !repr_bits_length; reflexivity).
  eapply emits_bind; [apply emits_assert| cbv beta |reflexivity].
  rewrite <- map_app.
  eapply emits_bind; [apply compute_ivk_prove; [exact Hp|]| cbv beta |reflexivity].
  { rewrite length_app, !repr_bits_length. reflexivity. }
  eapply emits_bind; [apply fbm_bits_prove; unfold Fr.CAPACITY, FIXED_BASE_CHUNKS_PER_GENERATOR; lia
                     | cbv beta |reflexivity].
  apply inputize_prove.
Qed.

(** Any witness, in a system that does not evaluate assignments. *)
Lemma synthesize_shape w :
  length CRH_IVK_PERSONALIZATION = 8%nat ->
  emits (synthesize w) Shape tt [None; None; None; None].
Proof.
  intros Hp. destruct w as [ok oa].
  unfold synthesize. cbn [proof_generation_key public_key_randomness].
  eapply emits_bind; [apply witness_shape| cbv beta |reflexivity].
  eapply emits_bind; [apply assert_not_small_order_shape| cbv beta |reflexivity].
  eapply emits_bind; [apply field_into_shape| cbv beta |reflexivity].
  eapply emits_bind; [apply fbm_shape; destruct oa; discriminate| cbv beta |reflexivity].
  eapply emits_bind; [apply add_shape| cbv beta |reflexivity].
  eapply emits_bind; [apply inputize_shape| cbv beta |reflexivity].
  eapply emits_bind; [apply field_into_shape| cbv beta |reflexivity].
  eapply emits_bind; [apply fbm_shape; destruct ok; discriminate| cbv beta |reflexivity].
  eapply emits_bind; [apply repr_shape| cbv beta |reflexivity].
  eapply emits_bind; [apply repr_shape| cbv beta zeta |reflexivity].
  eapply emits_bind; [apply emits_assert| cbv beta |reflexivity].
  eapply emits_bind; [apply compute_ivk_shape; [exact Hp | reflexivity]| cbv beta |reflexivity].
  eapply emits_bind; [apply fbm_shape; discriminate| cbv beta |reflexivity].
  apply inputize_shape.
Qed.
End SynthesizeRuns.

Section SynthesizeErrors.
Context {C : Curve} {H : Blake2sHash}.

Lemma bind_err {A B} (m : Synth A) (k : A -> Synth B) cs e :
  m cs = RErr e -> bind m k cs = RErr e.
Proof. intros E. simpl. rewrite E. reflexivity. Qed.

Lemma bind_ok {A B} (m : Synth A) (k : A -> Synth B) cs a cs' :
  m cs = ROk a cs' -> bind m k cs = k a cs'.
Proof. intros E. simpl. rewrite E. reflexivity. Qed.

Lemma bind_emits {A B} (m : Synth A) (k : A -> Synth B) md a i cs :
  emits m md a i -> cs_mode cs = md ->
  exists cs', bind m k cs = k a cs' /\ cs_mode cs' = md.
Proof.
  intros Hm Hcs. destruct (Hm cs Hcs) as [cs' [E [M _]]].
  exists cs'. simpl. rewrite E. auto.
Qed.

Lemma alloc_with_err_prove {A} (enc : A -> Z) e cs :
  cs_mode cs = Prove -> alloc_with enc (inl e) cs = RErr e.
Proof. intros Hcs. unfold alloc_with. rewrite Hcs. reflexivity. Qed.

Lemma witness_none_prove cs :
  cs_mode cs = Prove -> witness None cs = RErr AssignmentMissing.
Proof.
  intros Hcs. unfold witness, point_alloc.
  apply bind_err. apply alloc_with_err_prove. exact Hcs.
Qed.

Lemma small_order_prove p cs :
  cs_mode cs = Prove -> point_u (eight_times p) = 0 ->
  assert_not_small_order (Some p) cs = RErr DivisionByZero.
Proof.
  intros Hcs Hp. unfold assert_not_small_order.
  destruct (bind_emits _ (fun t => t <- double t ;; t <- double t ;;
              assert_nonzero (option_map point_u t)) _ _ _ cs (double_prove p) Hcs)
    as [cs1 [E1 M1]].
  rewrite E1. cbv beta.
  destruct (bind_emits _ (fun t => t <- double t ;;
              assert_nonzero (option_map point_u t)) _ _ _ cs1 (double_prove (padd p p)) M1)
    as [cs2 [E2 M2]].
  rewrite E2. cbv beta.
  destruct (bind_emits _ (fun t => assert_nonzero (option_map point_u t)) _ _ _ cs2
              (double_prove (padd (padd p p) (padd p p))) M2) as [cs3 [E3 M3]].
  refine (eq_trans E3 _). cbn [option_map]. unfold assert_nonzero.
  apply bind_err. unfold eight_times in Hp.
  unfold alloc_with. rewrite M3. simpl. rewrite Hp. reflexivity.
Qed.

Lemma field_into_none_prove n cs :
  (0 < n)%nat -> cs_mode cs = Prove ->
  field_into_boolean_vec_le n None cs = RErr AssignmentMissing.
Proof.
  intros Hn Hcs. destruct n as [|n]; [lia|].
  unfold field_into_boolean_vec_le. cbn [repeat mapS].
  apply bind_err. unfold bit_alloc. apply bind_err.
  apply alloc_with_err_prove. exact Hcs.
Qed.

(** In a system that evaluates assignments, an absent field or a small
    order [ak] is a synthesis error. *)
Lemma synthesize_prove_errors w cs :
  cs_mode cs = Prove ->
  (proof_generation_key w = None \/ public_key_randomness w = None \/
   exists k, proof_generation_key w = Some k /\ point_u (eight_times (ak k)) = 0) ->
  exists e, synthesize w cs = RErr e.
Proof.
  intros Hcs Hw. destruct w as [[k|] oa]; cbn [proof_generation_key public_key_randomness] in Hw.
  - unfold synthesize. cbn [option_map proof_generation_key public_key_randomness].
    destruct (witness_prove (ak k) cs Hcs) as [cs1 [E1 [M1 _]]].
    erewrite bind_ok by exact E1.
    destruct (Z.eq_dec (point_u (eight_times (ak k))) 0) as [Hz|Hz].
    + exists DivisionByZero. apply bind_err. apply small_order_prove; assumption.
    + destruct Hw as [Hw|[Hw|[k' [Hk' Hz']]]]; [discriminate| |].
      * subst oa.
        destruct (assert_not_small_order_prove _ Hz cs1 M1) as [cs2 [E2 [M2 _]]].
        erewrite bind_ok by exact E2.
        exists AssignmentMissing. apply bind_err.
        apply field_into_none_prove; [unfold Fr.NUM_BITS; lia | exact M2].
      * injection Hk' as <-. contradiction.
  - exists AssignmentMissing. unfold synthesize. cbn [option_map proof_generation_key].
    apply bind_err. apply witness_none_prove. exact Hcs.
Qed.
End SynthesizeErrors.

(** ** Panics during synthesis *)

Section Panics.
Context {C : Curve} {H : Blake2sHash}.
Variable site : PanicSite.

Lemma avoids_bind {A B} (m : Synth A) (k : A -> Synth B) P Q :
  avoids site m P -> (forall a, P a -> avoids site (k a) Q) ->
  avoids site (bind m k) Q.
Proof.
  intros Hm Hk cs. specialize (Hm cs). simpl.
  destruct (m cs) as [a cs'|e|p]; auto. apply (Hk a Hm cs').
Qed.

Lemma avoids_ret {A} (a : A) (P : A -> Prop) : P a -> avoids site (ret a) P.
Proof. intros Ha cs. exact Ha. Qed.

Lemma avoids_weaken {A} (m : Synth A) (P Q : A -> Prop) :
  avoids site m P -> (forall a, P a -> Q a) -> avoids site m Q.
Proof.
  intros Hm HPQ cs. specialize (Hm cs). destruct (m cs); auto.
Qed.

Lemma avoids_alloc {A} (enc : A -> Z) f : avoids site (alloc_with enc f) (fun _ => True).
Proof.
  intros cs. unfold alloc_with. destruct (cs_mode cs); [exact I|].
  destruct f; exact I.
Qed.

Lemma avoids_alloc_input f : avoids site (alloc_input f) (fun _ => True).
Proof.
  intros cs. unfold alloc_input. destruct (cs_mode cs); [exact I|].
  destruct f; exact I.
Qed.

Lemma avoids_assert b s :
  b = true \/ s <> site -> avoids site (assert_synth b s) (fun _ => True).
Proof.
  intros Hb cs. unfold assert_synth.
  destruct b; [exact I|]. destruct Hb; [discriminate | assumption].
Qed.

Lemma avoids_mapS {A B} (f : A -> Synth B) l :
  (forall x, avoids site (f x) (fun _ => True)) ->
  avoids site (mapS f l) (fun _ => True).
Proof.
  intros Hf. induction l as [|x l IH]; simpl.
  - apply avoids_ret. exact I.
  - eapply avoids_bind; [apply Hf|]. intros b _.
    eapply avoids_bind; [exact IH|]. intros bs _. apply avoids_ret. exact I.
Qed.

Lemma avoids_mapS_bit l : avoids site (mapS bit_alloc l) (fun r => r = l).
Proof.
  induction l as [|x l IH]; simpl.
  - apply avoids_ret. reflexivity.
  - eapply avoids_bind.
    + unfold bit_alloc. eapply avoids_bind; [apply avoids_alloc|].
      intros _ _. apply (avoids_ret x (fun r => r = x)). reflexivity.
    + intros b ->. eapply avoids_bind; [exact IH|]. intros bs ->.
      apply avoids_ret. reflexivity.
Qed.

Lemma avoids_field_into n v :
  avoids site (field_into_boolean_vec_le n v) (fun r => length r = n).
Proof.
  unfold field_into_boolean_vec_le. eapply avoids_weaken; [apply avoids_mapS_bit|].
  intros r ->. destruct v; [rewrite length_map, bits_le_length | rewrite repeat_length];
    reflexivity.
Qed.

Lemma avoids_point_alloc f : avoids site (point_alloc f) (fun _ => True).
Proof.
  unfold point_alloc. eapply avoids_bind; [apply avoids_alloc|]. intros p _.
  eapply avoids_bind; [apply avoids_alloc|]. intros _ _. apply avoids_ret. exact I.
Qed.

Lemma avoids_assert_not_small_order ep :
  avoids site (assert_not_small_order ep) (fun _ => True).
Proof.
  unfold assert_not_small_order, double.
  eapply avoids_bind; [apply avoids_point_alloc|]. intros t _.
  eapply avoids_bind; [apply avoids_point_alloc|]. intros t' _.
  eapply avoids_bind; [apply avoids_point_alloc|]. intros t'' _.
  unfold assert_nonzero. eapply avoids_bind; [apply avoids_alloc|].
  intros _ _. apply avoids_ret. exact I.
Qed.

Lemma avoids_fbm base by_ :
  avoids site (fixed_base_multiplication base by_) (fun _ => True).
Proof.
  unfold fixed_base_multiplication. destruct by_.
  - intros cs. exact I.
  - apply avoids_point_alloc.
Qed.

Lemma avoids_inputize ep : avoids site (inputize ep) (fun _ => True).
Proof.
  unfold inputize. eapply avoids_bind; [apply avoids_alloc_input|].
  intros _ _. apply avoids_alloc_input.
Qed.

Lemma avoids_repr ep : avoids site (repr ep) (fun r => length r = 256%nat).
Proof.
  unfold repr. eapply avoids_bind; [apply avoids_field_into|]. intros u _.
  eapply avoids_bind; [apply avoids_field_into|]. intros v Hv.
  apply avoids_ret. rewrite length_app, Hv. reflexivity.
Qed.
End Panics.

Section PanicsPreimage.
Context {C : Curve} {H : Blake2sHash}.

Lemma avoids_compute_ivk input :
  avoids PreimageLength (compute_ivk input) (fun _ => True).
Proof.
  unfold compute_ivk, blake2s.
  eapply avoids_bind.
  - eapply avoids_bind; [apply avoids_assert; right; discriminate|]. intros _ _.
    eapply avoids_bind; [apply avoids_assert; right; discriminate|]. intros _ _.
    apply avoids_mapS. intros i. apply avoids_alloc.
  - intros ivk _. apply avoids_ret. exact I.
Qed.

Lemma avoids_synthesize w : avoids PreimageLength (synthesize w) (fun _ => True).
Proof.
  unfold synthesize, witness, add.
  eapply avoids_bind; [apply avoids_point_alloc|]. intros ak' _.
  eapply avoids_bind; [apply avoids_assert_not_small_order|]. intros _ _.
  eapply avoids_bind; [apply avoids_field_into|]. intros ar _.
  eapply avoids_bind; [apply avoids_fbm|]. intros arp _.
  eapply avoids_bind; [apply avoids_point_alloc|]. intros rk _.
  eapply avoids_bind; [apply avoids_inputize|]. intros _ _.
  eapply avoids_bind; [apply avoids_field_into|]. intros nsk' _.
  eapply avoids_bind; [apply avoids_fbm|]. intros nk _.
  eapply avoids_bind; [apply avoids_repr|]. intros ra Hra.
  eapply avoids_bind; [apply avoids_repr|]. intros rn Hrn. cbv zeta.
  eapply avoids_bind.
  { apply avoids_assert. left. rewrite length_app, Hra, Hrn. reflexivity. }
  intros _ _.
  eapply avoids_bind; [apply avoids_compute_ivk|]. intros ivk _.
  eapply avoids_bind; [apply avoids_fbm|]. intros pkd _.
  apply avoids_inputize.
Qed.
End PanicsPreimage.

Section CircuitClaims.
Context {C : Curve} {H : Blake2sHash}.

Lemma avoids_success {A} site (m : Synth A) P cs a cs' :
  avoids site m P -> m cs = ROk a cs' -> P a.
Proof. intros Hm E. specialize (Hm cs). rewrite E in Hm. exact Hm. Qed.



(** C1 (corrected): where [synthesize] succeeds it appends exactly four
    public inputs, [rk.u, rk.v, pk_d.u, pk_d.v].  In a constraint system
    that does not evaluate assignments (parameter generation) it succeeds
    for every witness, with the four inputs unassigned; in one that
    evaluates them it succeeds for a full witness whose [ak] is not of
    small order, with [rk = ak + [ar] SPENDING_KEY_GENERATOR] and
    [pk_d = [ivk] PUBLIC_KEY_GENERATOR], and fails with a synthesis error
    when a field is absent or [ak] is of small order. *)
Theorem synthesize_public_inputs :
  length CRH_IVK_PERSONALIZATION = 8%nat ->
  (forall w, emits (synthesize w) Shape tt [None; None; None; None]) /\
  (forall k a,
     Fr.canonical (nsk k) -> Fr.canonical a ->
     point_u (eight_times (ak k)) <> 0 ->
     let rk := padd (ak k) (smul a SPENDING_KEY_GENERATOR) in
     let nk := smul (nsk k) PROOF_GENERATION_KEY_GENERATOR in
     let ivk := blake2s_digest CRH_IVK_PERSONALIZATION
                  (repr_bits (ak k) ++ repr_bits nk) mod 2 ^ Z.of_nat Fr.CAPACITY in
     let pk_d := smul ivk PUBLIC_KEY_GENERATOR in
     emits (synthesize (mkMintAsset (Some k) (Some a))) Prove tt
       [Some (point_u rk); Some (point_v rk); Some (point_u pk_d); Some (point_v pk_d)]) /\
  (forall w cs,
     cs_mode cs = Prove ->
     proof_generation_key w = None \/ public_key_randomness w = None \/
     (exists k, proof_generation_key w = Some k /\ point_u (eight_times (ak k)) = 0) ->
     exists e, synthesize w cs = RErr e).
Proof.
  intros Hp. split; [|split].
  - intros w. apply synthesize_shape. exact Hp.
  - intros k a Hk Ha Hak. apply synthesize_prove; assumption.
  - intros w cs Hcs Hw. apply synthesize_prove_errors; assumption.
Qed.


(** C8: the [ivk] preimage, the [repr] bits of [ak] followed by those of
    [nk], has 512 bits in every run, so the [assert_eq!] of line 167 never
    panics, whatever the witness and the constraint system. *)
Theorem ivk_preimage_length :
  (forall ep1 ep2 cs1 r1 cs2 r2 cs3,
     repr ep1 cs1 = ROk r1 cs2 -> repr ep2 cs2 = ROk r2 cs3 ->
     length (r1 ++ r2) = 512%nat) /\
  (forall w cs, synthesize w cs <> RPanic PreimageLength).
Proof.
  split.
  - intros ep1 ep2 cs1 r1 cs2 r2 cs3 E1 E2.
    rewrite length_app.
    rewrite (avoids_success _ _ _ _ _ _ (avoids_repr PreimageLength ep1) E1).
    rewrite (avoids_success _ _ _ _ _ _ (avoids_repr PreimageLength ep2) E2).
    reflexivity.
  - intros w cs E. pose proof (avoids_synthesize w cs) as A.
    rewrite E in A. apply A. reflexivity.
Qed.
End CircuitClaims.

(** ** More of the witness codec *)

Section CodecMore.
Context {C : Curve} {P : PgkCodec}.

Lemma stable_bind {A B} (m : Reader A) (k : A -> Reader B) :
  prefix_stable m -> (forall a, prefix_stable (k a)) -> prefix_stable (bind m k).
Proof.
  intros Hm Hk v b rest extra E. simpl in E |- *.
  destruct (m v) as [a s'| |] eqn:Em; try discriminate.
  rewrite (Hm _ _ _ extra Em). exact (Hk a _ _ _ extra E).
Qed.

Lemma stable_ret {A} (a : A) : prefix_stable (ret a).
Proof. intros v a' rest extra E. injection E as <- <-. reflexivity. Qed.

Lemma stable_read_u8 : prefix_stable read_u8.
Proof.
  intros [|b v] a rest extra E; [discriminate|].
  injection E as <- <-. reflexivity.
Qed.

Lemma stable_read_exact n : prefix_stable (read_exact n).
Proof.
  intros v l rest extra E. unfold read_exact in *.
  destruct (Nat.leb_spec n (length v)) as [Hn|Hn]; [|discriminate].
  injection E as <- <-.
  rewrite length_app.
  destruct (Nat.leb_spec n (length v + length extra)) as [_|Hn']; [|lia].
  rewrite firstn_app, skipn_app.
  replace (n - length v)%nat with 0%nat by lia.
  rewrite firstn_O, skipn_O, app_nil_r. reflexivity.
Qed.

Lemma stable_unwrap {A} (o : option A) : prefix_stable (unwrap o).
Proof.
  intros v a rest extra E. unfold unwrap in *.
  destruct o; [injection E as <- <-; reflexivity | discriminate].
Qed.

Lemma stable_if {A} (b : bool) (m1 m2 : Reader A) :
  prefix_stable m1 -> prefix_stable m2 -> prefix_stable (if b then m1 else m2).
Proof. destruct b; auto. Qed.

Lemma read_stable : prefix_stable pgk_read -> prefix_stable read.
Proof.
  intros Hp. unfold read.
  apply stable_bind; [apply stable_read_u8|]. intros b1.
  apply stable_bind.
  { apply stable_if; [apply stable_bind; [exact Hp|]; intros; apply stable_ret|].
    apply stable_ret. }
  intros k. apply stable_bind; [apply stable_read_u8|]. intros b2.
  apply stable_bind; [|intros; apply stable_ret].
  apply stable_if; [|apply stable_ret].
  apply stable_bind; [apply stable_read_exact|]. intros bs.
  apply stable_bind; [apply stable_unwrap|]. intros; apply stable_ret.
Qed.

Lemma read_write_rest (w : MintAsset) (rest : list byte) :
  (forall k, proof_generation_key w = Some k ->
     forall rest', pgk_read (pgk_to_bytes_le k ++ rest') = IoOk k rest') ->
  (forall a, public_key_randomness w = Some a -> Fr.canonical a) ->
  read (write w ++ rest) = IoOk w rest.
Proof.
  intros Hk Ha. destruct w as [ok oa]; simpl in Hk, Ha.
  unfold write, read; simpl proof_generation_key; simpl public_key_randomness.
  destruct ok as [k|]; simpl.
  - rewrite <- app_assoc, Hk by reflexivity. simpl.
    destruct oa as [a|]; simpl; [|reflexivity].
    pose proof (read_scalar_ok a rest (Ha a eq_refl)) as E.
    simpl in E. rewrite E. reflexivity.
  - destruct oa as [a|]; simpl; [|reflexivity].
    pose proof (read_scalar_ok a rest (Ha a eq_refl)) as E.
    simpl in E. rewrite E. reflexivity.
Qed.

Lemma read_short_scalar_gen (l : list byte) :
  (length l < 32)%nat ->
  (bytes <- read_exact 32 ;;
   a' <- unwrap (fr_from_bytes bytes) ;;
   ret (Some a')) l = IoErr UnexpectedEof.
Proof.
  intros Hl. simpl. unfold read_exact.
  destruct (Nat.leb_spec 32 (length l)); [lia | reflexivity].
Qed.

(** X1: [read] decodes the same witness when bytes are appended to its
    source, and leaves them unread, when the proof-generation-key reader
    does so too. *)
Theorem read_ignores_trailing (v extra rest : list byte) (w : MintAsset) :
  prefix_stable pgk_read ->
  read v = IoOk w rest ->
  read (v ++ extra) = IoOk w (rest ++ extra).
Proof. intros Hp E. exact (read_stable Hp _ _ _ extra E). Qed.


(** X3: a source that ends inside the witness is an [UnexpectedEof]
    error: a missing second presence byte, or fewer than 32 scalar bytes
    after an ar-presence byte [1], whether the key was absent or read. *)
Theorem read_truncated (b : byte) (l : list byte) :
  b <> x01 -> (length l < 32)%nat ->
  read [b] = IoErr UnexpectedEof /\
  read (b :: x01 :: l) = IoErr UnexpectedEof /\
  (forall s k, pgk_read s = IoOk k [] -> read (x01 :: s) = IoErr UnexpectedEof) /\
  (forall s k, pgk_read s = IoOk k (x01 :: l) -> read (x01 :: s) = IoErr UnexpectedEof).
Proof.
  intros Hb Hl. repeat split.
  - unfold read. simpl. rewrite (byte_eqb_neq _ _ Hb). reflexivity.
  - unfold read. simpl. rewrite (byte_eqb_neq _ _ Hb). simpl.
    pose proof (read_short_scalar_gen l Hl) as E. simpl in E. rewrite E. reflexivity.
  - intros s k E. unfold read. simpl. rewrite E. reflexivity.
  - intros s k E. unfold read. simpl. rewrite E. simpl.
    pose proof (read_short_scalar_gen l Hl) as E'. simpl in E'. rewrite E'. reflexivity.
Qed.

(** X4: deserializing the bytes [serialize] emits gives the witness back,
    whatever bytes follow them in the slice, under the premises of the
    codec round trip. *)
Theorem deserialize_serialize (w : MintAsset) (extra : list byte) :
  (forall k, proof_generation_key w = Some k ->
     forall rest', pgk_read (pgk_to_bytes_le k ++ rest') = IoOk k rest') ->
  (forall a, public_key_randomness w = Some a -> Fr.canonical a) ->
  visit_bytes (serialize w ++ extra) = Some w.
Proof.
  intros Hk Ha. unfold visit_bytes, serialize.
  rewrite (read_write_rest w extra Hk Ha). reflexivity.
Qed.

End CodecMore.

(** ** More of the ephemeral key pair *)

Section EphemeralMore.
Context {C : Curve}.


(** X7: [from_bytes_le] reads only the first 192 bytes: anything after
    them is ignored. *)
Theorem from_bytes_le_trailing (bytes extra : list byte) :
  (192 <= length bytes)%nat ->
  Ephemeral.from_bytes_le (bytes ++ extra) = Ephemeral.from_bytes_le bytes.
Proof.
  intros Hl. unfold Ephemeral.from_bytes_le. rewrite length_app.
  destruct (Nat.ltb_spec (length bytes + length extra) 32); [lia|].
  destruct (Nat.ltb_spec (length bytes) 32); [lia|].
  destruct (Nat.ltb_spec (length bytes + length extra) 192); [lia|].
  destruct (Nat.ltb_spec (length bytes) 192); [lia|].
  rewrite firstn_app, skipn_app.
  replace (32 - length bytes)%nat with 0%nat by lia.
  rewrite firstn_O, skipn_O, app_nil_r, firstn_app.
  rewrite length_skipn. replace (160 - (length bytes - 32))%nat with 0%nat by lia.
  rewrite firstn_O, app_nil_r. reflexivity.
Qed.


(** X9: [from_bytes_le] does not check that the public point matches the
    secret: a canonical secret followed by the encoding of any point that
    is not [[secret] PUBLIC_KEY_GENERATOR] decodes to a pair that breaks
    the invariant [new] establishes. *)
Theorem from_bytes_le_unchecked (s : Z) (p : Point) :
  Fr.canonical s ->
  length (point_to_bytes_le p) = 160%nat ->
  point_from_bytes_le (point_to_bytes_le p) = p ->
  p <> smul s PUBLIC_KEY_GENERATOR ->
  Ephemeral.from_bytes_le (fr_to_bytes s ++ point_to_bytes_le p) =
    Some (mkEphemeralKeyPair s p) /\
  Ephemeral.public_of (mkEphemeralKeyPair s p) <>
    smul (Ephemeral.secret_of (mkEphemeralKeyPair s p)) PUBLIC_KEY_GENERATOR.
Proof.
  intros Hs Hl Hp Hne. split; [|exact Hne].
  unfold Ephemeral.from_bytes_le. rewrite length_app, fr_to_bytes_length, Hl.
  simpl Nat.ltb. cbv iota.
  rewrite firstn_app, fr_to_bytes_length, Nat.sub_diag, firstn_O, app_nil_r.
  rewrite (firstn_all2 (fr_to_bytes s)) by (rewrite fr_to_bytes_length; lia).
  rewrite skipn_app, fr_to_bytes_length, Nat.sub_diag, skipn_O.
  rewrite (skipn_all2 (fr_to_bytes s)) by (rewrite fr_to_bytes_length; lia).
  rewrite app_nil_l, (firstn_all2 (point_to_bytes_le p)) by lia.
  rewrite fr_from_to_bytes by exact Hs.
  rewrite Hp. reflexivity.
Qed.
End EphemeralMore.

(** ** More of the circuit *)

Section SynthesizeMore.
Context {C : Curve} {H : Blake2sHash}.

Lemma avoids_compute_ivk_site site input :
  length CRH_IVK_PERSONALIZATION = 8%nat -> Nat.modulo (length input) 8 = 0%nat ->
  avoids site (compute_ivk input) (fun _ => True).
Proof.
  intros Hp Hb. unfold compute_ivk, blake2s.
  eapply avoids_bind.
  - eapply avoids_bind; [apply avoids_assert; left; rewrite Hp; reflexivity|]. intros _ _.
    eapply avoids_bind; [apply avoids_assert; left; rewrite Hb; reflexivity|]. intros _ _.
    apply avoids_mapS. intros i. apply avoids_alloc.
  - intros ivk _. apply avoids_ret. exact I.
Qed.

Lemma avoids_synthesize_site site w :
  length CRH_IVK_PERSONALIZATION = 8%nat ->
  avoids site (synthesize w) (fun _ => True).
Proof.
  intros Hp. unfold synthesize, witness, add.
  eapply avoids_bind; [apply avoids_point_alloc|]. intros ak' _.
  eapply avoids_bind; [apply avoids_assert_not_small_order|]. intros _ _.
  eapply avoids_bind; [apply avoids_field_into|]. intros ar _.
  eapply avoids_bind; [apply avoids_fbm|]. intros arp _.
  eapply avoids_bind; [apply avoids_point_alloc|]. intros rk _.
  eapply avoids_bind; [apply avoids_inputize|]. intros _ _.
  eapply avoids_bind; [apply avoids_field_into|]. intros nsk' _.
  eapply avoids_bind; [apply avoids_fbm|]. intros nk _.
  eapply avoids_bind; [apply avoids_repr|]. intros ra Hra.
  eapply avoids_bind; [apply avoids_repr|]. intros rn Hrn. cbv zeta.
  eapply avoids_bind.
  { apply avoids_assert. left. rewrite length_app, Hra, Hrn. reflexivity. }
  intros _ _.
  eapply avoids_bind.
  { apply avoids_compute_ivk_site; [exact Hp|]. rewrite length_app, Hra, Hrn. reflexivity. }
  intros ivk _.
  eapply avoids_bind; [apply avoids_fbm|]. intros pkd _.
  apply avoids_inputize.
Qed.

(** X10: with an 8-byte personalization, [synthesize] never panics, in
    any constraint system and for any witness: neither the [assert_eq!]
    on the preimage length nor the two assertions of the Blake2s gadget
    can fail. *)
Theorem synthesize_never_panics :
  length CRH_IVK_PERSONALIZATION = 8%nat ->
  forall w cs site, synthesize w cs <> RPanic site.
Proof.
  intros Hp w cs site E.
  pose proof (avoids_synthesize_site site w Hp cs) as A.
  rewrite E in A. apply A. reflexivity.
Qed.

(** X11: in a system that evaluates assignments, [synthesize] fails with
    [AssignmentMissing] when the proof generation key is absent, whatever
    [ar]; with [DivisionByZero] when [ak] is of small order, whatever
    [ar]; and with [AssignmentMissing] when the key is present and fine
    but [ar] is absent. *)
Theorem synthesize_error_kinds (cs : CS) :
  cs_mode cs = Prove ->
  (forall oa, synthesize (mkMintAsset None oa) cs = RErr AssignmentMissing) /\
  (forall k oa, point_u (eight_times (ak k)) = 0 ->
     synthesize (mkMintAsset (Some k) oa) cs = RErr DivisionByZero) /\
  (forall k, point_u (eight_times (ak k)) <> 0 ->
     synthesize (mkMintAsset (Some k) None) cs = RErr AssignmentMissing).
Proof.
  intros Hcs. split; [|split].
  - intros oa. unfold synthesize. cbn [option_map proof_generation_key].
    apply bind_err. apply witness_none_prove. exact Hcs.
  - intros k oa Hz. unfold synthesize. cbn [option_map proof_generation_key].
    destruct (witness_prove (ak k) cs Hcs) as [cs1 [E1 [M1 _]]].
    erewrite bind_ok by exact E1.
    apply bind_err. apply small_order_prove; assumption.
  - intros k Hz. unfold synthesize.
    cbn [option_map proof_generation_key public_key_randomness].
    destruct (witness_prove (ak k) cs Hcs) as [cs1 [E1 [M1 _]]].
    erewrite bind_ok by exact E1.
    destruct (assert_not_small_order_prove _ Hz cs1 M1) as [cs2 [E2 [M2 _]]].
    erewrite bind_ok by exact E2.
    apply bind_err. apply field_into_none_prove; [unfold Fr.NUM_BITS; lia | exact M2].
Qed.

(** X12: for full witnesses that synthesize, the two [rk] inputs depend
    only on [ak] and [ar], and the two [pk_d] inputs only on the proof
    generation key: changing [ar] leaves the owner address inputs as
    they are, and changing [nsk] leaves the [rk] inputs as they are. *)
Theorem synthesize_input_dependencies (k1 k2 : ProofGenerationKey) (a1 a2 : Z) :
  length CRH_IVK_PERSONALIZATION = 8%nat ->
  Fr.canonical (nsk k1) -> Fr.canonical a1 -> point_u (eight_times (ak k1)) <> 0 ->
  Fr.canonical (nsk k2) -> Fr.canonical a2 -> point_u (eight_times (ak k2)) <> 0 ->
  exists rk1 pk1 rk2 pk2,
    emits (synthesize (mkMintAsset (Some k1) (Some a1))) Prove tt (rk1 ++ pk1) /\
    emits (synthesize (mkMintAsset (Some k2) (Some a2))) Prove tt (rk2 ++ pk2) /\
    length rk1 = 2%nat /\ length rk2 = 2%nat /\
    (ak k1 = ak k2 -> a1 = a2 -> rk1 = rk2) /\
    (k1 = k2 -> pk1 = pk2).
Proof.
  intros Hp Hn1 Ha1 Hz1 Hn2 Ha2 Hz2.
  pose proof (synthesize_prove k1 a1 Hn1 Ha1 Hp Hz1) as E1.
  pose proof (synthesize_prove k2 a2 Hn2 Ha2 Hp Hz2) as E2.
  cbv zeta in E1, E2.
  match type of E1 with emits _ _ _ [?x1; ?y1; ?u1; ?v1] =>
  match type of E2 with emits _ _ _ [?x2; ?y2; ?u2; ?v2] =>
    exists [x1; y1], [u1; v1], [x2; y2], [u2; v2] end end.
  split; [exact E1|]. split; [exact E2|].
  split; [reflexivity|]. split; [reflexivity|]. split.
  - intros Hk Ha. rewrite Hk, Ha. reflexivity.
  - intros Hk. rewrite Hk. reflexivity.
Qed.
End SynthesizeMore.

(** ** Parameter generation does not see the witness *)

Section ShapeRuns.
Context {C : Curve} {H : Blake2sHash}.

Lemma sr_ret {A B} (R : A -> B -> Prop) a b : R a b -> shape_rel R (ret a) (ret b).
Proof. intros Hab cs Hcs. simpl. auto. Qed.

Lemma sr_bind {A B A' B'} (R : A -> B -> Prop) (S : A' -> B' -> Prop)
    (m1 : Synth A) (m2 : Synth B) k1 k2 :
  shape_rel R m1 m2 -> (forall a b, R a b -> shape_rel S (k1 a) (k2 b)) ->
  shape_rel S (bind m1 k1) (bind m2 k2).
Proof.
  intros Hm Hk cs Hcs. specialize (Hm cs Hcs). simpl.
  destruct (m1 cs) as [a1 cs1|e1|p1], (m2 cs) as [a2 cs2|e2|p2]; try contradiction; auto.
  destruct Hm as [HR [<- M]]. exact (Hk a1 a2 HR cs1 M).
Qed.

Lemma sr_weaken {A B} (R S : A -> B -> Prop) m1 m2 :
  shape_rel R m1 m2 -> (forall a b, R a b -> S a b) -> shape_rel S m1 m2.
Proof.
  intros Hm HRS cs Hcs. specialize (Hm cs Hcs).
  destruct (m1 cs), (m2 cs); intuition.
Qed.

Lemma sr_alloc {A B} (e1 : A -> Z) (e2 : B -> Z) f1 f2 :
  shape_rel (fun _ _ => True) (alloc_with e1 f1) (alloc_with e2 f2).
Proof. intros cs Hcs. unfold alloc_with. rewrite Hcs. simpl. auto. Qed.

Lemma sr_alloc_input f1 f2 :
  shape_rel (fun _ _ => True) (alloc_input f1) (alloc_input f2).
Proof. intros cs Hcs. unfold alloc_input. rewrite Hcs. simpl. auto. Qed.

Lemma sr_assert b1 b2 site :
  b1 = b2 -> shape_rel (fun _ _ => True) (assert_synth b1 site) (assert_synth b2 site).
Proof. intros <- cs Hcs. unfold assert_synth. destruct b1; auto. Qed.

Lemma sr_mapS {A B A' B'} (f : A -> Synth A') (g : B -> Synth B') l1 l2 :
  (forall x y, shape_rel (fun _ _ => True) (f x) (g y)) -> length l1 = length l2 ->
  shape_rel same_length (mapS f l1) (mapS g l2).
Proof.
  intros Hfg. revert l2. induction l1 as [|x l1 IH]; intros [|y l2] Hl;
    try discriminate; simpl.
  - apply sr_ret. reflexivity.
  - eapply sr_bind; [apply Hfg|]. intros ? ? _.
    eapply sr_bind; [apply IH; injection Hl; auto|]. intros r1 r2 Hr.
    apply sr_ret. unfold same_length in *. simpl. lia.
Qed.

Lemma sr_field_into n v1 v2 :
  shape_rel same_length (field_into_boolean_vec_le n v1) (field_into_boolean_vec_le n v2).
Proof.
  unfold field_into_boolean_vec_le. apply sr_mapS.
  - intros x y. unfold bit_alloc. eapply sr_bind; [apply sr_alloc|].
    intros ? ? _. apply sr_ret. exact I.
  - destruct v1, v2; rewrite ?length_map, ?bits_le_length, ?repeat_length; reflexivity.
Qed.

Lemma sr_point_alloc f1 f2 : shape_rel (fun _ _ => True) (point_alloc f1) (point_alloc f2).
Proof.
  unfold point_alloc. eapply sr_bind; [apply sr_alloc|]. intros ? ? _.
  eapply sr_bind; [apply sr_alloc|]. intros ? ? _. apply sr_ret. exact I.
Qed.

Lemma sr_assert_not_small_order ep1 ep2 :
  shape_rel (fun _ _ => True) (assert_not_small_order ep1) (assert_not_small_order ep2).
Proof.
  unfold assert_not_small_order, double.
  eapply sr_bind; [apply sr_point_alloc|]. intros ? ? _.
  eapply sr_bind; [apply sr_point_alloc|]. intros ? ? _.
  eapply sr_bind; [apply sr_point_alloc|]. intros ? ? _.
  unfold assert_nonzero. eapply sr_bind; [apply sr_alloc|]. intros ? ? _.
  apply sr_ret. exact I.
Qed.

Lemma sr_fbm base by1 by2 :
  length by1 = length by2 ->
  shape_rel (fun _ _ => True)
    (fixed_base_multiplication base by1) (fixed_base_multiplication base by2).
Proof.
  intros Hl. unfold fixed_base_multiplication.
  destruct by1, by2; try discriminate.
  - intros cs _. reflexivity.
  - apply sr_point_alloc.
Qed.

Lemma sr_inputize ep1 ep2 : shape_rel (fun _ _ => True) (inputize ep1) (inputize ep2).
Proof.
  unfold inputize. eapply sr_bind; [apply sr_alloc_input|]. intros ? ? _.
  apply sr_alloc_input.
Qed.

Lemma sr_repr ep1 ep2 : shape_rel same_length (repr ep1) (repr ep2).
Proof.
  unfold repr, into_bits_le_strict.
  eapply sr_bind; [apply sr_field_into|]. intros ? ? _.
  eapply sr_bind; [apply sr_field_into|]. intros v1 v2 Hv.
  apply sr_ret. unfold same_length in *. rewrite !length_app, Hv. reflexivity.
Qed.

Lemma sr_compute_ivk in1 in2 :
  length in1 = length in2 -> shape_rel same_length (compute_ivk in1) (compute_ivk in2).
Proof.
  intros Hl. unfold compute_ivk, blake2s.
  eapply sr_bind.
  - eapply sr_bind; [apply sr_assert; reflexivity|]. intros ? ? _.
    eapply sr_bind; [apply sr_assert; rewrite Hl; reflexivity|]. intros ? ? _.
    apply sr_mapS; [|reflexivity]. intros x y. apply sr_alloc.
  - intros i1 i2 Hi. apply sr_ret. unfold same_length, truncate in *.
    rewrite !length_firstn, Hi. reflexivity.
Qed.

(** X13: in a constraint system that does not evaluate assignments (the
    one parameter generation uses), a run of [synthesize] does not depend
    on the witness: every two witnesses give the same outcome and the
    same resulting system. *)
Theorem synthesize_shape_witness_independent (w1 w2 : MintAsset) (cs : CS) :
  cs_mode cs = Shape -> synthesize w1 cs = synthesize w2 cs.
Proof.
  intros Hcs.
  assert (Hr : shape_rel (fun _ _ => True) (synthesize w1) (synthesize w2)).
  { unfold synthesize, witness, add.
    eapply sr_bind; [apply sr_point_alloc|]. intros ? ? _.
    eapply sr_bind; [apply sr_assert_not_small_order|]. intros ? ? _.
    eapply sr_bind; [apply sr_field_into|]. intros ar1 ar2 Har.
    eapply sr_bind; [apply sr_fbm; exact Har|]. intros ? ? _.
    eapply sr_bind; [apply sr_point_alloc|]. intros ? ? _.
    eapply sr_bind; [apply sr_inputize|]. intros ? ? _.
    eapply sr_bind; [apply sr_field_into|]. intros n1 n2 Hn.
    eapply sr_bind; [apply sr_fbm; exact Hn|]. intros ? ? _.
    eapply sr_bind; [apply sr_repr|]. intros ra1 ra2 Hra.
    eapply sr_bind; [apply sr_repr|]. intros rn1 rn2 Hrn. cbv zeta.
    unfold same_length in Hra, Hrn.
    eapply sr_bind; [apply sr_assert; rewrite !length_app, Hra, Hrn; reflexivity|].
    intros ? ? _.
    eapply sr_bind; [apply sr_compute_ivk; rewrite !length_app, Hra, Hrn; reflexivity|].
    intros i1 i2 Hi.
    eapply sr_bind; [apply sr_fbm; exact Hi|]. intros ? ? _.
    apply sr_inputize. }
  specialize (Hr cs Hcs).
  destruct (synthesize w1 cs) as [[] cs1|e1|p1], (synthesize w2 cs) as [[] cs2|e2|p2];
    try contradiction.
  - destruct Hr as [_ [-> _]]. reflexivity.
  - subst. reflexivity.
  - subst. reflexivity.
Qed.
End ShapeRuns.

(** ** Concrete runs *)

Module Runs.
Import Toy.

Definition k0 : ProofGenerationKey := mkProofGenerationKey 7 11.
Definition w0 : MintAsset := mkMintAsset (Some k0) (Some 5).
Definition cs0 : CS := mkCS Prove [] [].

Example capacity_bound :
  2 ^ Z.of_nat Fr.CAPACITY <= Fr.MODULUS < 2 ^ Z.of_nat Fr.NUM_BITS.
Proof. vm_compute. split; [discriminate | reflexivity]. Qed.

Example fr_modulus_rejected : fr_from_bytes (bytes_le Fr.MODULUS 32) = None.
Proof. vm_compute. reflexivity. Qed.

Example write_w0 : length (write w0) = 98%nat.
Proof. reflexivity. Qed.

Lemma toy_pgk_roundtrip k rest :
  0 <= ak k < 256 ^ 32 -> Fr.canonical (nsk k) ->
  pgk_read (pgk_to_bytes_le k ++ rest) = IoOk k rest.
Proof.
  intros Hak Hnsk.
  change (pgk_to_bytes_le k) with (bytes_le (ak k) 32 ++ fr_to_bytes (nsk k)).
  rewrite <- app_assoc.
  change pgk_read with (a <- read_exact 32 ;; n <- read_exact 32 ;;
    ret (mkProofGenerationKey (Z_of_bytes_le a) (Z_of_bytes_le n))).
  erewrite reader_bind_ok by (apply read_exact_app, bytes_le_length).
  erewrite reader_bind_ok by (apply read_exact_app, fr_to_bytes_length).
  unfold fr_to_bytes. rewrite !Z_of_bytes_le_bytes_le.
  change (256 ^ Z.of_nat 32) with (256 ^ 32).
  assert (HM : Fr.MODULUS < 256 ^ 32) by (vm_compute; reflexivity).
  unfold Fr.canonical in Hnsk.
  rewrite (Z.mod_small (ak k)) by exact Hak.
  rewrite (Z.mod_small (nsk k)) by lia.
  destruct k; reflexivity.
Qed.

Lemma write_length_witness : length (write w0) = 98%nat.
Proof.
  apply (write_length w0).
  intros k Hk. injection Hk as <-. reflexivity.
Defined.

Lemma write_length_absent_absent :
  length (write (mkMintAsset None None)) <> 1%nat.
Proof. simpl. discriminate. Qed.

Lemma read_write_witness : read (write w0 ++ []) = IoOk w0 [].
Proof.
  apply read_write.
  - intros k Hk rest'. injection Hk as <-.
    apply toy_pgk_roundtrip; [vm_compute; split; [discriminate | reflexivity] |
                              vm_compute; split; [discriminate | reflexivity]].
  - intros a Ha. injection Ha as <-. unfold Fr.canonical, Fr.MODULUS. lia.
Defined.


Lemma to_from_bytes_le_witness :
  length (Ephemeral.to_bytes_le (Ephemeral.new 5)) = 192%nat /\
  Ephemeral.from_bytes_le (Ephemeral.to_bytes_le (Ephemeral.new 5)) =
    Some (Ephemeral.new 5).
Proof.
  apply to_from_bytes_le.
  - unfold Fr.canonical, Fr.MODULUS. simpl. lia.
  - reflexivity.
  - vm_compute. reflexivity.
Defined.

Lemma synthesize_public_inputs_witness :
  exists cs', synthesize w0 cs0 = ROk tt cs' /\ length (cs_inputs cs') = 4%nat.
Proof.
  pose proof (proj1 (proj2 (synthesize_public_inputs eq_refl)) k0 5) as Hp.
  cbv zeta in Hp.
  destruct (Hp ltac:(unfold Fr.canonical, Fr.MODULUS; simpl; lia)
               ltac:(unfold Fr.canonical, Fr.MODULUS; lia)
               ltac:(simpl; lia) cs0 eq_refl) as [cs' [E [_ I]]].
  exists cs'. split; [exact E|]. rewrite I. reflexivity.
Defined.

Lemma synthesize_absent_fails :
  synthesize (mkMintAsset None None) cs0 = RErr AssignmentMissing /\
  ~ (exists cs', synthesize (mkMintAsset None None) cs0 = ROk tt cs' /\
                 length (cs_inputs cs') = 4%nat).
Proof.
  split; [reflexivity|].
  intros [cs' [E _]]. vm_compute in E. discriminate.
Qed.


Lemma ivk_preimage_length_witness :
  exists r1 cs2 r2 cs3,
    repr (Some 7) cs0 = ROk r1 cs2 /\ repr (Some 14) cs2 = ROk r2 cs3 /\
    length (r1 ++ r2) = 512%nat /\ synthesize w0 cs0 <> RPanic PreimageLength.
Proof.
  do 4 eexists. split; [vm_compute; reflexivity|]. split; [vm_compute; reflexivity|]. split.
  - eapply (proj1 (ivk_preimage_length (C:=curve) (H:=hash)) (Some 7) (Some 14) cs0); vm_compute; reflexivity.
  - apply (proj2 ivk_preimage_length).
Defined.

Lemma toy_pgk_stable : prefix_stable pgk_read.
Proof.
  change pgk_read with (a <- read_exact 32 ;; n <- read_exact 32 ;;
    ret (mkProofGenerationKey (Z_of_bytes_le a) (Z_of_bytes_le n))).
  apply stable_bind; [apply stable_read_exact|]. intros a.
  apply stable_bind; [apply stable_read_exact|]. intros n. apply stable_ret.
Qed.

Lemma toy_pgk_roundtrip_k0 :
  forall k, proof_generation_key w0 = Some k ->
  forall rest', pgk_read (pgk_to_bytes_le k ++ rest') = IoOk k rest'.
Proof.
  intros k Hk rest'. injection Hk as <-.
  apply toy_pgk_roundtrip; [vm_compute; split; [discriminate | reflexivity] |
                            vm_compute; split; [discriminate | reflexivity]].
Qed.

Lemma toy_canonical_5 :
  forall a, public_key_randomness w0 = Some a -> Fr.canonical a.
Proof. intros a Ha. injection Ha as <-. unfold Fr.canonical, Fr.MODULUS. lia. Qed.

Lemma read_ignores_trailing_witness :
  read (write w0 ++ [x07]) = IoOk w0 ([] ++ [x07]).
Proof. apply read_ignores_trailing; [exact toy_pgk_stable | reflexivity]. Defined.


Lemma read_truncated_witness :
  read [x00] = IoErr UnexpectedEof /\
  read [x00; x01; x05] = IoErr UnexpectedEof /\
  (forall s k, pgk_read s = IoOk k [] -> read (x01 :: s) = IoErr UnexpectedEof) /\
  (forall s k, pgk_read s = IoOk k [x01; x05] -> read (x01 :: s) = IoErr UnexpectedEof).
Proof. apply (read_truncated x00 [x05]); [discriminate | simpl; lia]. Defined.

Lemma deserialize_serialize_witness : visit_bytes (serialize w0 ++ [x09]) = Some w0.
Proof.
  apply deserialize_serialize; [exact toy_pgk_roundtrip_k0 | exact toy_canonical_5].
Defined.



Lemma from_bytes_le_trailing_witness :
  Ephemeral.from_bytes_le (Ephemeral.to_bytes_le (Ephemeral.new 5) ++ [x01]) =
  Ephemeral.from_bytes_le (Ephemeral.to_bytes_le (Ephemeral.new 5)).
Proof. apply from_bytes_le_trailing. vm_compute. lia. Defined.


Lemma from_bytes_le_unchecked_witness :
  Ephemeral.from_bytes_le (fr_to_bytes 1 ++ point_to_bytes_le 0) =
    Some (mkEphemeralKeyPair 1 0) /\
  Ephemeral.public_of (mkEphemeralKeyPair 1 0) <>
    smul (Ephemeral.secret_of (mkEphemeralKeyPair 1 0)) PUBLIC_KEY_GENERATOR.
Proof.
  apply from_bytes_le_unchecked.
  - unfold Fr.canonical, Fr.MODULUS. lia.
  - reflexivity.
  - reflexivity.
  - simpl. lia.
Defined.

Lemma synthesize_never_panics_witness : synthesize w0 cs0 <> RPanic Blake2sInputBytes.
Proof. apply synthesize_never_panics. reflexivity. Defined.

Lemma synthesize_error_kinds_witness :
  synthesize (mkMintAsset None (Some 5)) cs0 = RErr AssignmentMissing /\
  synthesize (mkMintAsset (Some (mkProofGenerationKey 0 11)) (Some 5)) cs0
    = RErr DivisionByZero /\
  synthesize (mkMintAsset (Some k0) None) cs0 = RErr AssignmentMissing.
Proof.
  destruct (synthesize_error_kinds cs0 eq_refl) as [E1 [E2 E3]].
  split; [apply E1|]. split; [apply E2; reflexivity|]. apply E3. simpl. lia.
Defined.

Lemma synthesize_input_dependencies_witness :
  exists rk1 pk1 rk2 pk2,
    emits (synthesize (mkMintAsset (Some k0) (Some 5))) Prove tt (rk1 ++ pk1) /\
    emits (synthesize (mkMintAsset (Some k0) (Some 6))) Prove tt (rk2 ++ pk2) /\
    length rk1 = 2%nat /\ length rk2 = 2%nat /\
    (ak k0 = ak k0 -> 5 = 6 -> rk1 = rk2) /\
    (k0 = k0 -> pk1 = pk2).
Proof.
  apply synthesize_input_dependencies.
  - reflexivity.
  - unfold Fr.canonical, Fr.MODULUS. simpl. lia.
  - unfold Fr.canonical, Fr.MODULUS. lia.
  - simpl. lia.
  - unfold Fr.canonical, Fr.MODULUS. simpl. lia.
  - unfold Fr.canonical, Fr.MODULUS. lia.
  - simpl. lia.
Defined.

Lemma synthesize_shape_witness_independent_witness :
  synthesize w0 (mkCS Shape [] []) = synthesize (mkMintAsset None None) (mkCS Shape [] []).
Proof. apply synthesize_shape_witness_independent. reflexivity. Defined.

End Runs.
